(** * Fixed-window rate limiter (src/lib/rate-limiter/index.ts)

    A shallow embedding of [RateLimiter], [RateLimiterFactory] and the parts
    of the Prisma client and of [lib/errors] they use, followed by the
    properties of the limiter's design contract.

    Conventions of the embedding.
    - A JavaScript [Date] is its [getTime()] value: milliseconds since the
      epoch, an integer ([Z]).  [maxRequests], [windowMs] and the [count]
      column are integers as well.  For integers of magnitude below 2^53,
      [Math.ceil(a / 1000)] is the exact ceiling of the quotient, which is
      what [Math_ceil_div] computes.
    - The table [rateLimitRecord] has a unique [key] column (it is the
      argument of [findUnique]); it is a finite map from keys to the other
      two columns the limiter reads and writes.
    - Every read of the system clock ([new Date()], [Date.now()]) is a
      separate input of the call, collected in a [Clock]; nothing forces
      two reads of one call to agree.
    - Every call to the Prisma client may reject; which ones do is an input
      of the call, collected in an [Outage].  A rejected promise under
      [await] is a thrown value, modelled by [Rejected]. *)

From Stdlib Require Import ZArith Lia Ascii.
From stdpp Require Import gmap strings list fin_maps pretty.

Local Open Scope Z_scope.

(** ** Numbers *)

(** [Math.ceil(a / b)] for integers [a] and [b > 0]. *)
Definition Math_ceil_div (a b : Z) : Z := - ((- a) / b).

(** [Math.max(a, b)]. *)
Definition Math_max (a b : Z) : Z := Z.max a b.

(** ** src/types/index.ts *)

Record IRateLimitInfo := mkInfo {
  limit : Z;
  remaining : Z;
  reset : Z
}.

(** ** lib/errors *)

Inductive ErrorCode :=
| VALIDATION_ERROR
| AUTHENTICATION_ERROR
| AUTHORIZATION_ERROR
| NOT_FOUND
| CONFLICT
| RATE_LIMIT_EXCEEDED
| INTERNAL_SERVER_ERROR
| BAD_REQUEST.

(** The fields of a [RateLimitError] object: those of [BaseError] and
    [retryAfter]. *)
Record RateLimitError := mkRateLimitError {
  message : string;
  statusCode : Z;
  errorCode : ErrorCode;
  isOperational : bool;
  retryAfter : Z
}.

(** [new RateLimitError(retryAfter)]; [isOperational] takes the default of
    [BaseError]'s constructor. *)
Definition new_RateLimitError (retryAfter : Z) : RateLimitError :=
  {| message := "Too many requests. Please try again later.";
     statusCode := 429;
     errorCode := RATE_LIMIT_EXCEEDED;
     isOperational := true;
     retryAfter := retryAfter |}.

(** What an operation of the limiter can throw: its own [RateLimitError],
    or whatever the Prisma client rejected with (identified by a
    description). *)
Inductive Thrown :=
| ThrowRateLimit (e : RateLimitError)
| ThrowStorage (why : string).

(** ** The rateLimitRecord table and the Prisma calls *)

(** Modelled from the spec: the Prisma model [RateLimitRecord]
    (prisma/schema.prisma is not among the sources).  Section 3 of the spec
    gives its columns: a unique [key], [count] and [expiresAt]; these are
    also the only columns the limiter names.  A row is kept under its [key]
    in the table, so the record holds the other two. *)
Record RateLimitRecord := mkRecord {
  count : Z;
  expiresAt : Z
}.

Abbreviation Table := (gmap string RateLimitRecord).

Inductive Outcome (A : Type) :=
| Resolved (a : A)
| Rejected (e : Thrown).
Arguments Resolved {A} a.
Arguments Rejected {A} e.

(** An asynchronous computation against the table.  The table it leaves
    behind is kept when it rejects too: a throw does not roll anything
    back. *)
Definition Prisma (A : Type) : Type := Table -> Outcome A * Table.

Definition ret {A} (a : A) : Prisma A := fun db => (Resolved a, db).

Definition throw {A} (e : Thrown) : Prisma A := fun db => (Rejected e, db).

Definition bind {A B} (m : Prisma A) (k : A -> Prisma B) : Prisma B :=
  fun db =>
    match m db with
    | (Resolved a, db') => k a db'
    | (Rejected e, db') => (Rejected e, db')
    end.

(** [try { await m } catch { handler }] *)
Definition try_catch {A} (m : Prisma A) (handler : Thrown -> Prisma A) : Prisma A :=
  fun db =>
    match m db with
    | (Resolved a, db') => (Resolved a, db')
    | (Rejected e, db') => handler e db'
    end.

Notation "'await' x <~ m ; k" := (bind m (fun x => k))
  (at level 10, x name, m at level 100, k at level 200).

(** A Prisma call that is down rejects and leaves the table alone. *)
Definition guarded {A} (down : option string) (call : Prisma A) : Prisma A :=
  match down with
  | Some why => throw (ThrowStorage why)
  | None => call
  end.

(** [prisma.rateLimitRecord.findUnique({ where: { key } })] *)
Definition findUnique (down : option string) (key : string)
  : Prisma (option RateLimitRecord) :=
  guarded down (fun db => (Resolved (db !! key), db)).

(** [prisma.rateLimitRecord.upsert({ where: { key }, update, create })]:
    the row of [key] gets the [update] data when it exists and is created
    from the [create] data when it does not; the resulting row is
    returned. *)
Definition upsert (down : option string) (key : string)
    (update : RateLimitRecord -> RateLimitRecord) (create : RateLimitRecord)
  : Prisma RateLimitRecord :=
  guarded down (fun db =>
    let row := match db !! key with
               | Some old => update old
               | None => create
               end in
    (Resolved row, <[key := row]> db)).

(** [prisma.rateLimitRecord.update({ where: { key }, data })]: rejects when
    there is no row for [key]. *)
Definition update (down : option string) (key : string)
    (data : RateLimitRecord -> RateLimitRecord)
  : Prisma RateLimitRecord :=
  guarded down (fun db =>
    match db !! key with
    | Some old => (Resolved (data old), <[key := data old]> db)
    | None => (Rejected (ThrowStorage "Record to update not found."), db)
    end).

(** [prisma.rateLimitRecord.deleteMany({ where: { expiresAt: { lt: t } } })];
    the batch count it resolves to is ignored by every caller. *)
Definition deleteMany_expired (down : option string) (t : Z) : Prisma unit :=
  guarded down (fun db =>
    (Resolved tt, filter (fun kr => ¬ (expiresAt kr.2 < t)) db)).

(** [prisma.rateLimitRecord.deleteMany({ where: { key } })] *)
Definition deleteMany_key (down : option string) (key : string) : Prisma unit :=
  guarded down (fun db => (Resolved tt, delete key db)).

(** ** The inputs of one call *)

(** The clock reads of one call: [sweepAt] is [new Date()] in
    [cleanupExpired]; [nowAt] is [new Date()] in the body of [consume] or in
    the condition of [check]; [resetAt] is [Date.now()] in the first
    [calculateResetTime()] of the call ([update.expiresAt] in [consume], the
    returned [reset] in [check]); [createAt] is [Date.now()] in the second
    one ([create.expiresAt] in [consume]). *)
Record Clock := mkClock {
  sweepAt : Z;
  nowAt : Z;
  resetAt : Z;
  createAt : Z
}.

(** Which Prisma calls of one call reject, and with what: the sweep of
    [cleanupExpired], the [findUnique], and the write ([upsert], [update] or
    the [deleteMany] of [reset]). *)
Record Outage := mkOutage {
  sweepDown : option string;
  findDown : option string;
  writeDown : option string
}.

Record Env := mkEnv {
  clock : Clock;
  outage : Outage
}.

(** A call during which the clock does not advance. *)
Definition instant (t : Z) : Clock :=
  {| sweepAt := t; nowAt := t; resetAt := t; createAt := t |}.

Definition all_up : Outage :=
  {| sweepDown := None; findDown := None; writeDown := None |}.

(** The calls [consume] and [check] cannot do without are up. *)
Definition core_up (o : Outage) : Prop :=
  findDown o = None ∧ writeDown o = None.

(** ** class RateLimiter *)

Record RateLimiter := mkRateLimiter {
  maxRequests : Z;
  windowMs : Z
}.

(** The methods take the object they are called on as [self]. *)

Definition generateKey (self : RateLimiter) (identifier : string) : string :=
  "rate_limit:" +:+ identifier.

(** [dateNow] is the value [Date.now()] returns. *)
Definition calculateResetTime (self : RateLimiter) (dateNow : Z) : Z :=
  dateNow + windowMs self.

(** [newDate] is the value of [new Date()]. *)
Definition cleanupExpired (self : RateLimiter) (down : option string) (newDate : Z)
  : Prisma unit :=
  try_catch (deleteMany_expired down newDate) (fun _ => ret tt).

Definition check (self : RateLimiter) (env : Env) (identifier : string)
  : Prisma IRateLimitInfo :=
  let key := generateKey self identifier in
  await _ <~ cleanupExpired self (sweepDown (outage env)) (sweepAt (clock env)) ;
  await record <~ findUnique (findDown (outage env)) key ;
  let hypothetical :=
    ret {| limit := maxRequests self;
           remaining := maxRequests self;
           reset := Math_ceil_div (calculateResetTime self (resetAt (clock env))) 1000 |} in
  match record with
  | None => hypothetical
  | Some r =>
      if bool_decide (expiresAt r < nowAt (clock env)) then hypothetical
      else
        let remaining := Math_max 0 (maxRequests self - count r) in
        ret {| limit := maxRequests self;
               remaining := remaining;
               reset := Math_ceil_div (expiresAt r) 1000 |}
  end.

(** The tail of [consume]: the info computed from the row the write
    returned. *)
Definition info_of (self : RateLimiter) (record : RateLimitRecord) : IRateLimitInfo :=
  let remaining := Math_max 0 (maxRequests self - count record) in
  {| limit := maxRequests self;
     remaining := remaining;
     reset := Math_ceil_div (expiresAt record) 1000 |}.

Definition consume (self : RateLimiter) (env : Env) (identifier : string)
  : Prisma IRateLimitInfo :=
  let key := generateKey self identifier in
  await _ <~ cleanupExpired self (sweepDown (outage env)) (sweepAt (clock env)) ;
  let now := nowAt (clock env) in
  await record <~ findUnique (findDown (outage env)) key ;
  let new_window :=
    await record <~ upsert (writeDown (outage env)) key
                      (fun old => {| count := 1;
                                     expiresAt := calculateResetTime self (resetAt (clock env)) |})
                      {| count := 1;
                         expiresAt := calculateResetTime self (createAt (clock env)) |} ;
    ret (info_of self record) in
  match record with
  | None => new_window
  | Some r =>
      if bool_decide (expiresAt r < now) then new_window
      else if bool_decide (count r >= maxRequests self) then
        let retryAfter := Math_ceil_div (expiresAt r - now) 1000 in
        throw (ThrowRateLimit (new_RateLimitError retryAfter))
      else
        await record <~ update (writeDown (outage env)) key
                          (fun old => {| count := count old + 1;
                                         expiresAt := expiresAt old |}) ;
        ret (info_of self record)
  end.

(** The method [reset]; the name [reset] is taken by the field of
    [IRateLimitInfo]. *)
Definition reset_ (self : RateLimiter) (env : Env) (identifier : string) : Prisma unit :=
  let key := generateKey self identifier in
  deleteMany_key (writeDown (outage env)) key.

(** ** class RateLimiterFactory *)

Record IRateLimitConfig := mkConfig {
  config_maxRequests : Z;
  config_windowMs : Z
}.

(** The state of the process the factory lives in: the [RateLimiter]
    objects allocated so far (an object's reference is its index in
    [objects]) and the static [instances] map from names to references. *)
Record Process := mkProcess {
  objects : list RateLimiter;
  instances : gmap string nat
}.

Definition boot : Process := {| objects := []; instances := ∅ |}.

(** [new RateLimiter(config)]: allocates an object and returns its
    reference. *)
Definition new_RateLimiter (config : IRateLimitConfig) (p : Process) : nat * Process :=
  (length (objects p),
   {| objects := objects p ++ [ {| maxRequests := config_maxRequests config;
                                   windowMs := config_windowMs config |} ];
      instances := instances p |}).

Definition instances_has (key : string) (p : Process) : bool :=
  bool_decide (is_Some (instances p !! key)).

Definition instances_set (key : string) (ref : nat) (p : Process) : Process :=
  {| objects := objects p; instances := <[key := ref]> (instances p) |}.

(** [this.instances.get(key)!]: the non-null assertion is erased at run
    time, so a missing entry gives [undefined], here [None]. *)
Definition instances_get (key : string) (p : Process) : option nat :=
  instances p !! key.

Definition createCustomLimiter (name : string) (config : IRateLimitConfig)
    (p : Process) : option nat * Process :=
  let p' :=
    if negb (instances_has name p) then
      let '(ref, p1) := new_RateLimiter config p in
      instances_set name ref p1
    else p in
  (instances_get name p', p').

Definition getDefaultLimiter (p : Process) : option nat * Process :=
  let key := "default"%string in
  let p' :=
    if negb (instances_has key p) then
      let '(ref, p1) :=
        new_RateLimiter {| config_maxRequests := 100;
                           config_windowMs := 15 * 60 * 1000 |} p in
      instances_set key ref p1
    else p in
  (instances_get key p', p').

Definition getAuthLimiter (p : Process) : option nat * Process :=
  let key := "auth"%string in
  let p' :=
    if negb (instances_has key p) then
      let '(ref, p1) :=
        new_RateLimiter {| config_maxRequests := 20;
                           config_windowMs := 15 * 60 * 1000 |} p in
      instances_set key ref p1
    else p in
  (instances_get key p', p').

Definition getStrictLimiter (p : Process) : option nat * Process :=
  let key := "strict"%string in
  let p' :=
    if negb (instances_has key p) then
      let '(ref, p1) :=
        new_RateLimiter {| config_maxRequests := 10;
                           config_windowMs := 60 * 1000 |} p in
      instances_set key ref p1
    else p in
  (instances_get key p', p').

(** The limiter object behind a reference. *)
Definition deref (p : Process) (ref : option nat) : option RateLimiter :=
  ref ≫= fun r => objects p !! r.

(** The calls a process can make on the factory, and their effect on it. *)
Inductive FactoryCall :=
| GetDefault
| GetAuth
| GetStrict
| CreateCustom (name : string) (config : IRateLimitConfig).

Definition factory_call (c : FactoryCall) (p : Process) : option nat * Process :=
  match c with
  | GetDefault => getDefaultLimiter p
  | GetAuth => getAuthLimiter p
  | GetStrict => getStrictLimiter p
  | CreateCustom name config => createCustomLimiter name config p
  end.

Definition factory_calls (cs : list FactoryCall) (p : Process) : Process :=
  foldl (fun q c => (factory_call c q).2) p cs.

(** ** Sequences of calls on one limiter *)

(** Calls made one after the other, each with its own inputs; the outcomes
    are listed in call order. *)
Fixpoint consume_all (self : RateLimiter) (calls : list (Env * string)) (db : Table)
  : list (Outcome IRateLimitInfo) * Table :=
  match calls with
  | [] => ([], db)
  | (env, identifier) :: rest =>
      let '(o, db1) := consume self env identifier db in
      let '(os, db2) := consume_all self rest db1 in
      (o :: os, db2)
  end.

Fixpoint check_all (self : RateLimiter) (calls : list (Env * string)) (db : Table)
  : list (Outcome IRateLimitInfo) * Table :=
  match calls with
  | [] => ([], db)
  | (env, identifier) :: rest =>
      let '(o, db1) := check self env identifier db in
      let '(os, db2) := check_all self rest db1 in
      (o :: os, db2)
  end.

(** The tables one limiter can bring about, starting from the empty
    table. *)
Inductive reachable (self : RateLimiter) : Table -> Prop :=
| reachable_empty : reachable self ∅
| reachable_check env identifier db :
    reachable self db -> reachable self (check self env identifier db).2
| reachable_consume env identifier db :
    reachable self db -> reachable self (consume self env identifier db).2
| reachable_reset env identifier db :
    reachable self db -> reachable self (reset_ self env identifier db).2.

(** ** Vocabulary of the properties *)

(** The whole of one call's effect on the table is determined by what the
    sweep left: [swept down t db] is the table after [cleanupExpired]. *)
Definition swept (down : option string) (t : Z) (db : Table) : Table :=
  match down with
  | Some _ => db
  | None => filter (fun kr => ¬ (expiresAt kr.2 < t)) db
  end.

(** The record the upsert of [consume] writes: the [update] data when the
    swept table has a row for the key, the [create] data when it has none. *)
Definition new_window_row (self : RateLimiter) (env : Env)
    (found : option RateLimitRecord) : RateLimitRecord :=
  match found with
  | Some _ => {| count := 1; expiresAt := resetAt (clock env) + windowMs self |}
  | None => {| count := 1; expiresAt := createAt (clock env) + windowMs self |}
  end.

(** What [findUnique] returned is no record, or an expired one. *)
Definition stale (found : option RateLimitRecord) (now : Z) : Prop :=
  forall r, found = Some r -> expiresAt r < now.

Inductive consume_case (self : RateLimiter) (env : Env) (identifier : string)
    (db : Table) : Outcome IRateLimitInfo * Table -> Prop :=
| case_find_down why :
    findDown (outage env) = Some why ->
    consume_case self env identifier db
      (Rejected (ThrowStorage why),
       swept (sweepDown (outage env)) (sweepAt (clock env)) db)
| case_new_window_down why :
    findDown (outage env) = None ->
    stale (swept (sweepDown (outage env)) (sweepAt (clock env)) db
             !! generateKey self identifier) (nowAt (clock env)) ->
    writeDown (outage env) = Some why ->
    consume_case self env identifier db
      (Rejected (ThrowStorage why),
       swept (sweepDown (outage env)) (sweepAt (clock env)) db)
| case_new_window :
    core_up (outage env) ->
    stale (swept (sweepDown (outage env)) (sweepAt (clock env)) db
             !! generateKey self identifier) (nowAt (clock env)) ->
    let row :=
      new_window_row self env
        (swept (sweepDown (outage env)) (sweepAt (clock env)) db
           !! generateKey self identifier) in
    consume_case self env identifier db
      (Resolved (info_of self row),
       <[generateKey self identifier := row]>
         (swept (sweepDown (outage env)) (sweepAt (clock env)) db))
| case_exhausted r :
    findDown (outage env) = None ->
    swept (sweepDown (outage env)) (sweepAt (clock env)) db
      !! generateKey self identifier = Some r ->
    nowAt (clock env) <= expiresAt r ->
    maxRequests self <= count r ->
    consume_case self env identifier db
      (Rejected (ThrowRateLimit (new_RateLimitError
         (Math_ceil_div (expiresAt r - nowAt (clock env)) 1000))),
       swept (sweepDown (outage env)) (sweepAt (clock env)) db)
| case_increment_down why r :
    findDown (outage env) = None ->
    swept (sweepDown (outage env)) (sweepAt (clock env)) db
      !! generateKey self identifier = Some r ->
    nowAt (clock env) <= expiresAt r ->
    count r < maxRequests self ->
    writeDown (outage env) = Some why ->
    consume_case self env identifier db
      (Rejected (ThrowStorage why),
       swept (sweepDown (outage env)) (sweepAt (clock env)) db)
| case_increment r :
    core_up (outage env) ->
    swept (sweepDown (outage env)) (sweepAt (clock env)) db
      !! generateKey self identifier = Some r ->
    nowAt (clock env) <= expiresAt r ->
    count r < maxRequests self ->
    consume_case self env identifier db
      (Resolved (info_of self {| count := count r + 1; expiresAt := expiresAt r |}),
       <[generateKey self identifier :=
           {| count := count r + 1; expiresAt := expiresAt r |}]>
         (swept (sweepDown (outage env)) (sweepAt (clock env)) db)).

(** The info a successful [consume] returns when it is the [i]-th success
    (counting from 0) of the window ending at [closes]. *)
Definition nth_success (self : RateLimiter) (closes : Z) (i : nat)
  : Outcome IRateLimitInfo :=
  Resolved {| limit := maxRequests self;
              remaining := maxRequests self - 1 - Z.of_nat i;
              reset := Math_ceil_div closes 1000 |}.

(** A call made while the window ending at [closes] is open. *)
Definition within_window (closes : Z) (env : Env) : Prop :=
  sweepAt (clock env) <= closes /\ nowAt (clock env) <= closes.

(** Every stored count is at most [maxRequests]. *)
Definition counts_bounded (self : RateLimiter) (db : Table) : Prop :=
  forall k r, db !! k = Some r -> count r <= maxRequests self.

(** A row that has expired for every call still to come ([nows] lists the
    [now] of each), or no row at all. *)
Definition dead_for (nows : list Z) (found : option RateLimitRecord) : Prop :=
  forall r, found = Some r -> Forall (fun now => expiresAt r < now) nows.

(** Two tables that agree on every key, except that each may hold rows the
    other lacks or holds differently when these rows are dead for the calls
    to come. *)
Definition agree_for (nows : list Z) (a b : Table) : Prop :=
  forall k, a !! k = b !! k \/ (dead_for nows (a !! k) /\ dead_for nows (b !! k)).

(** The two [calculateResetTime()] of the call's upsert read the same
    clock value. *)
Definition one_reset_read (c : Clock) : Prop := resetAt c = createAt c.

(** The clock values a record must have expired before to be dead for a
    [consume] call: its [now], and also its sweep's read when the two
    [calculateResetTime()] reads of its upsert differ. *)
Definition marks (env : Env) : list Z :=
  if decide (resetAt (clock env) = createAt (clock env))
  then [nowAt (clock env)]
  else [nowAt (clock env); sweepAt (clock env)].

(** A [check] with inputs [chk] comes no later than the [consume] with
    inputs [call], and that [consume] either reads one clock value for the
    two [calculateResetTime()] of its upsert, or has its own sweep up and
    reading the clock no earlier than the sweep of the [check]. *)
Definition settled_after (chk call : Env) : Prop :=
  sweepAt (clock chk) <= nowAt (clock call)
  /\ (one_reset_read (clock call)
      \/ (sweepDown (outage call) = None
          /\ sweepAt (clock chk) <= sweepAt (clock call))).

(** The tables the limiters of [fleet] can bring about between them on the
    table they share, starting from the empty table. *)
Inductive reachable_shared (fleet : list RateLimiter) : Table -> Prop :=
| shared_empty : reachable_shared fleet ∅
| shared_check self env identifier db :
    self ∈ fleet -> reachable_shared fleet db ->
    reachable_shared fleet (check self env identifier db).2
| shared_consume self env identifier db :
    self ∈ fleet -> reachable_shared fleet db ->
    reachable_shared fleet (consume self env identifier db).2
| shared_reset self env identifier db :
    self ∈ fleet -> reachable_shared fleet db ->
    reachable_shared fleet (reset_ self env identifier db).2.

(** ** Vocabulary of the further properties *)

(** The name a call on the factory looks up, and the configuration it
    constructs a limiter from when the name is free. *)
Definition registration (c : FactoryCall) : string * IRateLimitConfig :=
  match c with
  | GetDefault =>
      ("default"%string,
       {| config_maxRequests := 100; config_windowMs := 15 * 60 * 1000 |})
  | GetAuth =>
      ("auth"%string,
       {| config_maxRequests := 20; config_windowMs := 15 * 60 * 1000 |})
  | GetStrict =>
      ("strict"%string,
       {| config_maxRequests := 10; config_windowMs := 60 * 1000 |})
  | CreateCustom name config => (name, config)
  end.

(** Every registered reference points at an allocated object, and no two
    names share a reference. *)
Definition well_formed (p : Process) : Prop :=
  (forall name ref, instances p !! name = Some ref ->
                    (ref < length (objects p))%nat)
  /\ (forall name1 name2 ref,
        instances p !! name1 = Some ref ->
        instances p !! name2 = Some ref -> name1 = name2).

(** [new RateLimiter(config)] as a value. *)
Definition limiter_of (config : IRateLimitConfig) : RateLimiter :=
  {| maxRequests := config_maxRequests config;
     windowMs := config_windowMs config |}.

(** If [name] is registered, it is with a limiter made from [config]. *)
Definition registered_with (name : string) (config : IRateLimitConfig)
    (p : Process) : Prop :=
  forall ref, instances p !! name = Some ref ->
              objects p !! ref = Some (limiter_of config).

(** A [createCustomLimiter] call that leaves the three preset names alone. *)
Definition spares_presets (c : FactoryCall) : Prop :=
  match c with
  | CreateCustom name _ =>
      name <> "default"%string /\ name <> "auth"%string /\ name <> "strict"%string
  | _ => True
  end.

(** ** Strings, numbers and JSON values of the callers *)

(** The white space [String.prototype.trim] removes, among the code units
    up to 255 a header value is made of: TAB, LF, VT, FF, CR, SP and
    NBSP. *)
Definition is_white_space (a : ascii) : bool :=
  match a with
  | "009" | "010" | "011" | "012" | "013" | " " | "160" => true
  | _ => false
  end%char.

Fixpoint trimStart (s : string) : string :=
  match s with
  | EmptyString => EmptyString
  | String a rest => if is_white_space a then trimStart rest else s
  end.

Fixpoint trimEnd (s : string) : string :=
  match s with
  | EmptyString => EmptyString
  | String a rest =>
      match trimEnd rest with
      | EmptyString => if is_white_space a then EmptyString
                       else String a EmptyString
      | kept => String a kept
      end
  end.

(** [s.trim()] *)
Definition trim (s : string) : string := trimEnd (trimStart s).

(** [s.split(',')[0]]: what comes before the first comma, the whole of [s]
    when it has none. *)
Fixpoint split_comma_first (s : string) : string :=
  match s with
  | EmptyString => EmptyString
  | String a rest =>
      if Ascii.eqb a ","%char then EmptyString
      else String a (split_comma_first rest)
  end.

(** The truth value of a string or [null]: [null] and [""] are falsy. *)
Definition truthy (s : option string) : bool :=
  match s with
  | None | Some EmptyString => false
  | Some _ => true
  end.

(** [n.toString()] for an integer of magnitude below 1e21: its decimal
    digits, after a "-" when it is negative. *)
Definition Number_toString (n : Z) : string := pretty n.

#[local] Unset Elimination Schemes.
Inductive Json :=
| JNull
| JBool (b : bool)
| JNumber (n : Z)
| JString (s : string)
| JArray (items : list Json)
| JObject (members : list (string * Json)).
#[local] Set Elimination Schemes.

(** [members[key]] of an object literal, [None] for [undefined]. *)
Fixpoint get_member (key : string) (members : list (string * Json)) : option Json :=
  match members with
  | [] => None
  | (k, v) :: rest => if decide (k = key) then Some v else get_member key rest
  end.

(** [value.key] for a value that is not [null]: a member of an object,
    [undefined] on anything else (no key used here is an index or a
    built-in property). *)
Definition property (key : string) (value : Json) : option Json :=
  match value with
  | JObject members => get_member key members
  | _ => None
  end.

(** [{ ...members, key: value }] *)
Fixpoint spread_with (members : list (string * Json)) (key : string) (value : Json)
  : list (string * Json) :=
  match members with
  | [] => [(key, value)]
  | (k, v) :: rest =>
      if decide (k = key) then (k, value) :: rest
      else (k, v) :: spread_with rest key value
  end.

(** [!value], for a value or [undefined]. *)
Definition falsy (value : option Json) : bool :=
  match value with
  | None | Some JNull | Some (JBool false) | Some (JNumber 0)
  | Some (JString EmptyString) => true
  | _ => false
  end.

(** ** Fetch [Headers] and [NextResponse] *)

Definition ascii_lower (a : ascii) : ascii :=
  let n := nat_of_ascii a in
  if ((65 <=? n) && (n <=? 90))%nat then ascii_of_nat (n + 32) else a.

Fixpoint lower (s : string) : string :=
  match s with
  | EmptyString => EmptyString
  | String a rest => String (ascii_lower a) (lower rest)
  end.

(** A header list holds one value per name, names compared without regard
    to letter case: a finite map keyed by the lower-cased name. *)
Abbreviation Headers := (gmap string string).

(** [headers.set(name, value)], for a valid name and a value without
    surrounding white space (the callers pass fixed names and decimal
    numbers). *)
Definition Headers_set (name value : string) (headers : Headers) : Headers :=
  <[lower name := value]> headers.

(** [headers.get(name)], [None] for [null]. *)
Definition Headers_get (name : string) (headers : Headers) : option string :=
  headers !! lower name.

Record NextResponse := mkResponse {
  res_status : Z;
  res_body : Json;
  res_headers : Headers
}.

(** [NextResponse.json(body, { status })] *)
Definition NextResponse_json (body : Json) (status : Z) : NextResponse :=
  {| res_status := status;
     res_body := body;
     res_headers := Headers_set "content-type" "application/json" ∅ |}.

(** What a handler reads of a request: the values [request.headers.get]
    returns for the two names it asks for. *)
Record NextRequest := mkRequest {
  x_forwarded_for : option string;
  x_real_ip : option string
}.

(** ** class RateLimitHeaderManager *)

Definition RateLimitHeaderManager_apply (headers : Headers)
    (rateLimitInfo : IRateLimitInfo) : Headers :=
  let headers1 :=
    Headers_set "X-RateLimit-Limit" (Number_toString (limit rateLimitInfo)) headers in
  let headers2 :=
    Headers_set "X-RateLimit-Remaining"
      (Number_toString (remaining rateLimitInfo)) headers1 in
  Headers_set "X-RateLimit-Reset" (Number_toString (reset rateLimitInfo)) headers2.

Definition applyRateLimitHeaders (headers : Headers)
    (rateLimitInfo : IRateLimitInfo) : Headers :=
  RateLimitHeaderManager_apply headers rateLimitInfo.

(** ** lib/errors: the error classes and [ErrorHandler] *)

(** An error object, by its class and what its constructor stored.  A
    [RateLimitError] is the object of that class defined above. *)
Inductive BaseError :=
| ValidationError (message : string) (fields : list (string * string))
| AuthenticationError (message : string)
| AuthorizationError (message : string)
| NotFoundError (resource : string)
| ConflictError (message : string)
| RateLimitError_ (e : RateLimitError)
| InternalServerError (message : string)
| BadRequestError (message : string).

(** The constructors; an omitted argument ([None]) takes its default. *)
Definition new_ValidationError (message : string)
    (fields : option (list (string * string))) : BaseError :=
  ValidationError message (default [] fields).

Definition new_AuthenticationError (message : option string) : BaseError :=
  AuthenticationError (default "Authentication failed"%string message).

Definition new_AuthorizationError (message : option string) : BaseError :=
  AuthorizationError (default "Access denied"%string message).

Definition new_NotFoundError (resource : option string) : BaseError :=
  NotFoundError (default "Resource"%string resource).

Definition new_ConflictError (message : string) : BaseError :=
  ConflictError message.

Definition new_InternalServerError (message : option string) : BaseError :=
  InternalServerError (default "An unexpected error occurred"%string message).

Definition new_BadRequestError (message : string) : BaseError :=
  BadRequestError message.

(** The fields [BaseError]'s constructor sets from the [super(...)] call of
    each class. *)
Definition error_message (e : BaseError) : string :=
  match e with
  | ValidationError message _ => message
  | AuthenticationError message => message
  | AuthorizationError message => message
  | NotFoundError resource => resource +:+ " not found"
  | ConflictError message => message
  | RateLimitError_ e => message e
  | InternalServerError message => message
  | BadRequestError message => message
  end.

Definition error_statusCode (e : BaseError) : Z :=
  match e with
  | ValidationError _ _ => 400
  | AuthenticationError _ => 401
  | AuthorizationError _ => 403
  | NotFoundError _ => 404
  | ConflictError _ => 409
  | RateLimitError_ e => statusCode e
  | InternalServerError _ => 500
  | BadRequestError _ => 400
  end.

Definition error_errorCode (e : BaseError) : ErrorCode :=
  match e with
  | ValidationError _ _ => VALIDATION_ERROR
  | AuthenticationError _ => AUTHENTICATION_ERROR
  | AuthorizationError _ => AUTHORIZATION_ERROR
  | NotFoundError _ => NOT_FOUND
  | ConflictError _ => CONFLICT
  | RateLimitError_ e => errorCode e
  | InternalServerError _ => INTERNAL_SERVER_ERROR
  | BadRequestError _ => BAD_REQUEST
  end.

Definition error_isOperational (e : BaseError) : bool :=
  match e with
  | RateLimitError_ e => isOperational e
  | InternalServerError _ => false
  | _ => true
  end.

(** The string value of each member of the enum. *)
Definition ErrorCode_value (c : ErrorCode) : string :=
  match c with
  | VALIDATION_ERROR => "VALIDATION_ERROR"
  | AUTHENTICATION_ERROR => "AUTHENTICATION_ERROR"
  | AUTHORIZATION_ERROR => "AUTHORIZATION_ERROR"
  | NOT_FOUND => "NOT_FOUND"
  | CONFLICT => "CONFLICT"
  | RATE_LIMIT_EXCEEDED => "RATE_LIMIT_EXCEEDED"
  | INTERNAL_SERVER_ERROR => "INTERNAL_SERVER_ERROR"
  | BAD_REQUEST => "BAD_REQUEST"
  end.

(** [BaseError.prototype.toJSON] *)
Definition BaseError_toJSON (e : BaseError) : list (string * Json) :=
  [ ("success"%string, JBool false);
    ("error"%string,
     JObject [ ("code"%string, JString (ErrorCode_value (error_errorCode e)));
               ("message"%string, JString (error_message e));
               ("statusCode"%string, JNumber (error_statusCode e)) ]) ].

(** [e.toJSON()], with the overrides of [ValidationError] and
    [RateLimitError]. *)
Definition toJSON (e : BaseError) : Json :=
  match e with
  | ValidationError _ fields =>
      JObject (spread_with (BaseError_toJSON e) "fields"
                 (JObject (map (fun kv => (kv.1, JString kv.2)) fields)))
  | RateLimitError_ r =>
      JObject (spread_with (BaseError_toJSON e) "retryAfter"
                 (JNumber (retryAfter r)))
  | _ => JObject (BaseError_toJSON e)
  end.

(** A value caught by a [catch] clause: an instance of [BaseError], or
    anything else (a plain [Error], a rejection of the Prisma client, a
    string), of which only a description is kept. *)
Inductive Caught :=
| CaughtBaseError (e : BaseError)
| CaughtOther (what : string).

(** [ErrorHandler.handle(error)]: the status and the body.  The
    [console.error] of the second branch is not modelled. *)
Definition ErrorHandler_handle (error : Caught) : Z * Json :=
  match error with
  | CaughtBaseError e => (error_statusCode e, toJSON e)
  | CaughtOther _ =>
      let internalError := new_InternalServerError None in
      (error_statusCode internalError, toJSON internalError)
  end.

(** What the limiter throws, as a caught value. *)
Definition caught_of (t : Thrown) : Caught :=
  match t with
  | ThrowRateLimit e => CaughtBaseError (RateLimitError_ e)
  | ThrowStorage why => CaughtOther why
  end.

(** ** The callers: a handler and a route *)

(** The result of an awaited call whose code is not modelled: its value, or
    what it threw. *)
Inductive Awaited (A : Type) :=
| Returned (a : A)
| Threw (error : Caught).
Arguments Returned {A} a.
Arguments Threw {A} error.

Record ITokenPayload := mkPayload {
  userId : string;
  email : string;
  role : string
}.

(** [getClientIP] of [UserHandler] and [IssueHandler]. *)
Definition getClientIP (request : NextRequest) : string :=
  let forwarded := x_forwarded_for request in
  let ip :=
    if truthy forwarded then split_comma_first (default EmptyString forwarded)
    else if truthy (x_real_ip request) then default EmptyString (x_real_ip request)
    else "unknown"%string in
  trim ip.

(** [request.headers.get('x-forwarded-for')?.split(',')[0] || 'unknown'] of
    the routes. *)
Definition route_clientIP (request : NextRequest) : string :=
  let first := split_comma_first <$> x_forwarded_for request in
  if truthy first then default EmptyString first else "unknown"%string.

(** A [UserHandler] object: [rateLimiter] is the field its constructor sets
    from [RateLimiterFactory.getDefaultLimiter()]. *)
Record UserHandler := mkUserHandler {
  rateLimiter : RateLimiter
}.

(** [UserHandler.getProfile(request)].  [authenticate] is the result of
    [this.authMiddleware.authenticate(request)] and [userService_getProfile]
    that of [this.userService.getProfile(userId)]; neither touches the
    rateLimitRecord table. *)
Definition UserHandler_getProfile (this : UserHandler) (env : Env)
    (request : NextRequest) (authenticate : Awaited ITokenPayload)
    (userService_getProfile : string -> Awaited Json) (db : Table)
  : NextResponse * Table :=
  let catch (error : Caught) :=
    let '(status, body) := ErrorHandler_handle error in
    NextResponse_json body status in
  let clientIP := getClientIP request in
  match consume (rateLimiter this) env ("profile:" +:+ clientIP) db with
  | (Rejected thrown, db') => (catch (caught_of thrown), db')
  | (Resolved rateLimitInfo, db') =>
      match authenticate with
      | Threw error => (catch error, db')
      | Returned payload =>
          match userService_getProfile (userId payload) with
          | Threw error => (catch error, db')
          | Returned user =>
              let response :=
                JObject [ ("success"%string, JBool true);
                          ("message"%string,
                           JString "Profile retrieved successfully");
                          ("data"%string, user) ] in
              let nextResponse := NextResponse_json response 200 in
              ({| res_status := res_status nextResponse;
                  res_body := res_body nextResponse;
                  res_headers :=
                    applyRateLimitHeaders (res_headers nextResponse)
                      rateLimitInfo |}, db')
          end
      end
  end.

(** [POST /api/auth/verify-email].  [rateLimiter] is the module's limiter
    (from [getDefaultLimiter()]), [request_json] the result of
    [request.json()] and [verifyEmail] that of
    [authHandler.verifyEmail(token)]; the logger calls are not modelled. *)
Definition verify_email_POST (rateLimiter : RateLimiter) (env : Env)
    (request : NextRequest) (request_json : Awaited Json)
    (verifyEmail : Json -> Awaited unit) (db : Table)
  : NextResponse * Table :=
  let catch (error : Caught) :=
    match error with
    | CaughtBaseError (RateLimitError_ _) =>
        NextResponse_json
          (JObject [ ("success"%string, JBool false);
                     ("message"%string,
                      JString "Too many requests. Please try again later.") ])
          429
    | CaughtBaseError (ValidationError message _) =>
        NextResponse_json
          (JObject [ ("success"%string, JBool false);
                     ("message"%string, JString message) ])
          400
    | _ =>
        NextResponse_json
          (JObject [ ("success"%string, JBool false);
                     ("message"%string,
                      JString "Failed to verify email. The link may have expired.") ])
          500
    end in
  let clientIP := route_clientIP request in
  match consume rateLimiter env ("verify-email:" +:+ clientIP) db with
  | (Rejected thrown, db') => (catch (caught_of thrown), db')
  | (Resolved rateLimitInfo, db') =>
      match request_json with
      | Threw error => (catch error, db')
      | Returned JNull =>
          (catch (CaughtOther "TypeError: cannot destructure null"), db')
      | Returned body =>
          let token := property "token" body in
          if falsy token then
            (catch (CaughtBaseError
                      (new_ValidationError "Verification token is required" None)),
             db')
          else
            match verifyEmail (default JNull token) with
            | Threw error => (catch error, db')
            | Returned _ =>
                let response :=
                  NextResponse_json
                    (JObject [ ("success"%string, JBool true);
                               ("message"%string,
                                JString "Email has been verified successfully.") ])
                    200 in
                ({| res_status := res_status response;
                    res_body := res_body response;
                    res_headers :=
                      applyRateLimitHeaders (res_headers response)
                        rateLimitInfo |}, db')
            end
      end
  end.

(** ** Vocabulary of the callers' properties *)

Fixpoint all_white_space (s : string) : bool :=
  match s with
  | EmptyString => true
  | String a rest => is_white_space a && all_white_space rest
  end.

Fixpoint comma_free (s : string) : bool :=
  match s with
  | EmptyString => true
  | String a rest => negb (Ascii.eqb a ","%char) && comma_free rest
  end.

(** An error object as a constructor leaves it: for a [RateLimitError], the
    fields are those [new RateLimitError(retryAfter)] sets. *)
Definition constructed (e : BaseError) : Prop :=
  match e with
  | RateLimitError_ r => r = new_RateLimitError (retryAfter r)
  | _ => True
  end.

Definition constructed_caught (error : Caught) : Prop :=
  match error with
  | CaughtBaseError e => constructed e
  | CaughtOther _ => True
  end.

Definition constructed_awaited {A} (result : Awaited A) : Prop :=
  match result with
  | Returned _ => True
  | Threw error => constructed_caught error
  end.

(** ** Auxiliary facts *)

Lemma Math_ceil_div_bounds (a b : Z) :
  0 < b -> b * (Math_ceil_div a b - 1) < a <= b * Math_ceil_div a b.
Proof.
  intros Hb. unfold Math_ceil_div.
  pose proof (Z.div_mod (- a) b ltac:(lia)) as Hdm.
  pose proof (Z.mod_pos_bound (- a) b Hb) as Hm.
  nia.
Qed.

Lemma Math_ceil_div_nonneg (a b : Z) : 0 < b -> 0 <= a -> 0 <= Math_ceil_div a b.
Proof.
  intros Hb Ha. pose proof (Math_ceil_div_bounds a b Hb). nia.
Qed.

Lemma cleanupExpired_run self (down : option string) (t : Z) (db : Table) :
  cleanupExpired self down t db = (Resolved tt, swept down t db).
Proof. by destruct down. Qed.

Lemma swept_lookup_Some (down : option string) (t : Z) (db : Table) k r :
  swept down t db !! k = Some r -> db !! k = Some r.
Proof.
  destruct down as [why|]; simpl; [done|].
  intros H. by apply map_lookup_filter_Some in H as [? _].
Qed.

Lemma swept_lookup_live (down : option string) (t : Z) (db : Table) k r :
  db !! k = Some r -> t <= expiresAt r -> swept down t db !! k = Some r.
Proof.
  intros Hk Hr. destruct down as [why|]; simpl; [done|].
  apply map_lookup_filter_Some. split; [done|]. simpl. lia.
Qed.

Lemma swept_lookup_None (down : option string) (t : Z) (db : Table) k :
  db !! k = None -> swept down t db !! k = None.
Proof.
  intros Hk. destruct (swept down t db !! k) as [r|] eqn:E; [|done].
  apply swept_lookup_Some in E. congruence.
Qed.

Lemma swept_lookup_cases (down : option string) (t : Z) (db : Table) k :
  swept down t db !! k = db !! k
  \/ (swept down t db !! k = None /\ exists r, db !! k = Some r /\ expiresAt r < t).
Proof.
  destruct (db !! k) as [r|] eqn:Hk.
  - destruct (decide (t <= expiresAt r)) as [Hle|Hgt].
    + left. by apply swept_lookup_live.
    + destruct (swept down t db !! k) as [r'|] eqn:E.
      * left. apply swept_lookup_Some in E. congruence.
      * right. split; [done|]. exists r. split; [done|lia].
  - left. by apply swept_lookup_None.
Qed.

(** *** What one call does, in terms of the swept table *)

Arguments generateKey : simpl never.

Ltac run_call :=
  unfold consume, check, reset_, bind, findUnique, upsert, update,
    deleteMany_key, guarded, throw, ret;
  rewrite ?cleanupExpired_run; simpl.

Lemma consume_find_down self env identifier db why :
  findDown (outage env) = Some why ->
  consume self env identifier db
  = (Rejected (ThrowStorage why),
     swept (sweepDown (outage env)) (sweepAt (clock env)) db).
Proof. intros Hf. run_call. by rewrite Hf. Qed.

Lemma check_find_down self env identifier db why :
  findDown (outage env) = Some why ->
  check self env identifier db
  = (Rejected (ThrowStorage why),
     swept (sweepDown (outage env)) (sweepAt (clock env)) db).
Proof. intros Hf. run_call. by rewrite Hf. Qed.

Lemma consume_create self env identifier db :
  core_up (outage env) ->
  swept (sweepDown (outage env)) (sweepAt (clock env)) db
    !! generateKey self identifier = None ->
  let row := {| count := 1;
                expiresAt := createAt (clock env) + windowMs self |} in
  consume self env identifier db
  = (Resolved (info_of self row),
     <[generateKey self identifier := row]>
       (swept (sweepDown (outage env)) (sweepAt (clock env)) db)).
Proof. intros [Hf Hw] Hk. run_call. by rewrite Hf; simpl; rewrite Hk, Hw; simpl; rewrite Hk. Qed.

Lemma consume_renew self env identifier db r :
  core_up (outage env) ->
  swept (sweepDown (outage env)) (sweepAt (clock env)) db
    !! generateKey self identifier = Some r ->
  expiresAt r < nowAt (clock env) ->
  let row := {| count := 1;
                expiresAt := resetAt (clock env) + windowMs self |} in
  consume self env identifier db
  = (Resolved (info_of self row),
     <[generateKey self identifier := row]>
       (swept (sweepDown (outage env)) (sweepAt (clock env)) db)).
Proof.
  intros [Hf Hw] Hk Hexp. run_call. rewrite Hf; simpl. rewrite Hk.
  rewrite bool_decide_true by done. by rewrite Hw; simpl; rewrite Hk.
Qed.

Lemma consume_increment self env identifier db r :
  core_up (outage env) ->
  swept (sweepDown (outage env)) (sweepAt (clock env)) db
    !! generateKey self identifier = Some r ->
  nowAt (clock env) <= expiresAt r ->
  count r < maxRequests self ->
  let row := {| count := count r + 1; expiresAt := expiresAt r |} in
  consume self env identifier db
  = (Resolved (info_of self row),
     <[generateKey self identifier := row]>
       (swept (sweepDown (outage env)) (sweepAt (clock env)) db)).
Proof.
  intros [Hf Hw] Hk Hlive Hroom. run_call. rewrite Hf; simpl. rewrite Hk.
  rewrite bool_decide_false by lia. rewrite bool_decide_false by lia.
  by rewrite Hw; simpl; rewrite Hk.
Qed.

Lemma consume_reject self env identifier db r :
  findDown (outage env) = None ->
  swept (sweepDown (outage env)) (sweepAt (clock env)) db
    !! generateKey self identifier = Some r ->
  nowAt (clock env) <= expiresAt r ->
  maxRequests self <= count r ->
  consume self env identifier db
  = (Rejected (ThrowRateLimit (new_RateLimitError
       (Math_ceil_div (expiresAt r - nowAt (clock env)) 1000))),
     swept (sweepDown (outage env)) (sweepAt (clock env)) db).
Proof.
  intros Hf Hk Hlive Hfull. run_call. rewrite Hf; simpl. rewrite Hk.
  rewrite bool_decide_false by lia. by rewrite bool_decide_true by lia.
Qed.

Lemma info_of_first self t :
  1 <= maxRequests self ->
  info_of self {| count := 1; expiresAt := t |}
  = {| limit := maxRequests self;
       remaining := maxRequests self - 1;
       reset := Math_ceil_div t 1000 |}.
Proof. intros HN. unfold info_of, Math_max. simpl. f_equal. lia. Qed.

Lemma check_hypothetical self env identifier db :
  findDown (outage env) = None ->
  (forall r,
     swept (sweepDown (outage env)) (sweepAt (clock env)) db
       !! generateKey self identifier = Some r ->
     expiresAt r < nowAt (clock env)) ->
  check self env identifier db
  = (Resolved {| limit := maxRequests self;
                 remaining := maxRequests self;
                 reset := Math_ceil_div
                            (resetAt (clock env) + windowMs self) 1000 |},
     swept (sweepDown (outage env)) (sweepAt (clock env)) db).
Proof.
  intros Hf Hstale. run_call. rewrite Hf; simpl.
  destruct (swept _ _ db !! generateKey self identifier) as [r|] eqn:Hk; [|done].
  by rewrite bool_decide_true by auto.
Qed.

Lemma check_live self env identifier db r :
  findDown (outage env) = None ->
  swept (sweepDown (outage env)) (sweepAt (clock env)) db
    !! generateKey self identifier = Some r ->
  nowAt (clock env) <= expiresAt r ->
  check self env identifier db
  = (Resolved {| limit := maxRequests self;
                 remaining := Math_max 0 (maxRequests self - count r);
                 reset := Math_ceil_div (expiresAt r) 1000 |},
     swept (sweepDown (outage env)) (sweepAt (clock env)) db).
Proof.
  intros Hf Hk Hlive. run_call. rewrite Hf; simpl. rewrite Hk.
  by rewrite bool_decide_false by lia.
Qed.

(** Whatever happens, [check] leaves behind the table the sweep left. *)
Lemma check_table self env identifier db :
  (check self env identifier db).2
  = swept (sweepDown (outage env)) (sweepAt (clock env)) db.
Proof.
  run_call. destruct (findDown (outage env)); simpl; [done|].
  destruct (swept _ _ db !! generateKey self identifier) as [r|]; [|done].
  by destruct (bool_decide _).
Qed.

(** The absent-or-expired case of [consume], whichever way the write goes:
    the window it opens ends [windowMs] after the clock read of the
    [calculateResetTime()] whose value the upsert uses. *)
Lemma consume_new_window self env identifier db :
  core_up (outage env) ->
  (forall r, db !! generateKey self identifier = Some r ->
             expiresAt r < nowAt (clock env)) ->
  exists t db',
    (t = resetAt (clock env) \/ t = createAt (clock env))
    /\ (db !! generateKey self identifier = None -> t = createAt (clock env))
    /\ consume self env identifier db
       = (Resolved (info_of self {| count := 1; expiresAt := t + windowMs self |}),
          db')
    /\ db' !! generateKey self identifier
       = Some {| count := 1; expiresAt := t + windowMs self |}
    /\ (forall k, k <> generateKey self identifier ->
          db' !! k = swept (sweepDown (outage env)) (sweepAt (clock env)) db !! k).
Proof.
  intros Hup Hstale.
  destruct (swept (sweepDown (outage env)) (sweepAt (clock env)) db
              !! generateKey self identifier) as [r|] eqn:Hk.
  - pose proof (swept_lookup_Some _ _ _ _ _ Hk) as Hdb.
    eexists (resetAt (clock env)), _. split; [by left|].
    split; [intros Hnone; congruence|].
    split; [by apply (consume_renew self env identifier db r); auto|].
    split; [by rewrite lookup_insert_eq|].
    intros k Hne. by rewrite lookup_insert_ne.
  - eexists (createAt (clock env)), _. split; [by right|].
    split; [done|].
    split; [by apply consume_create|].
    split; [by rewrite lookup_insert_eq|].
    intros k Hne. by rewrite lookup_insert_ne.
Qed.

(** *** The factory *)

Lemma getDefaultLimiter_as_custom p :
  getDefaultLimiter p
  = createCustomLimiter "default"
      {| config_maxRequests := 100; config_windowMs := 15 * 60 * 1000 |} p.
Proof. reflexivity. Qed.

Lemma getAuthLimiter_as_custom p :
  getAuthLimiter p
  = createCustomLimiter "auth"
      {| config_maxRequests := 20; config_windowMs := 15 * 60 * 1000 |} p.
Proof. reflexivity. Qed.

Lemma getStrictLimiter_as_custom p :
  getStrictLimiter p
  = createCustomLimiter "strict"
      {| config_maxRequests := 10; config_windowMs := 60 * 1000 |} p.
Proof. reflexivity. Qed.

Lemma createCustomLimiter_registered name config p ref :
  instances p !! name = Some ref ->
  createCustomLimiter name config p = (Some ref, p).
Proof.
  intros Hreg. unfold createCustomLimiter, instances_has, instances_get.
  rewrite bool_decide_true by (by rewrite Hreg). simpl. by rewrite Hreg.
Qed.

Lemma createCustomLimiter_new name config p :
  instances p !! name = None ->
  createCustomLimiter name config p
  = (Some (length (objects p)),
     {| objects := objects p ++ [ {| maxRequests := config_maxRequests config;
                                     windowMs := config_windowMs config |} ];
        instances := <[name := length (objects p)]> (instances p) |}).
Proof.
  intros Hnew. unfold createCustomLimiter, instances_has, instances_get.
  rewrite bool_decide_false by (rewrite Hnew; by intros [? ?]).
  simpl. by rewrite lookup_insert_eq.
Qed.

(** A registration survives every call on the factory, whatever the name
    and configuration that call is made with. *)
Lemma createCustomLimiter_preserves name' config' p name ref lim :
  instances p !! name = Some ref ->
  objects p !! ref = Some lim ->
  let p' := (createCustomLimiter name' config' p).2 in
  instances p' !! name = Some ref /\ objects p' !! ref = Some lim.
Proof.
  intros Hreg Hobj.
  destruct (instances p !! name') as [ref'|] eqn:Hother.
  - by rewrite (createCustomLimiter_registered _ _ _ _ Hother).
  - rewrite (createCustomLimiter_new _ _ _ Hother). simpl. split.
    + rewrite lookup_insert_ne; [done|]. intros ->. congruence.
    + by apply lookup_app_l_Some.
Qed.

Lemma factory_call_preserves c p name ref lim :
  instances p !! name = Some ref ->
  objects p !! ref = Some lim ->
  let p' := (factory_call c p).2 in
  instances p' !! name = Some ref /\ objects p' !! ref = Some lim.
Proof.
  intros Hreg Hobj. destruct c; unfold factory_call;
    rewrite ?getDefaultLimiter_as_custom, ?getAuthLimiter_as_custom,
      ?getStrictLimiter_as_custom;
    by apply createCustomLimiter_preserves.
Qed.

Lemma factory_calls_preserve cs p name ref lim :
  instances p !! name = Some ref ->
  objects p !! ref = Some lim ->
  let p' := factory_calls cs p in
  instances p' !! name = Some ref /\ objects p' !! ref = Some lim.
Proof.
  revert p. induction cs as [|c cs IH]; intros p Hreg Hobj; simpl; [done|].
  destruct (factory_call_preserves c p name ref lim Hreg Hobj) as [Hreg' Hobj'].
  by apply IH.
Qed.

(** *** The storage key *)

Lemma generateKey_inj self a b :
  generateKey self a = generateKey self b -> a = b.
Proof. unfold generateKey. simpl. intros H. by simplify_eq. Qed.

(** [consume] writes no record but the one under its key. *)
Lemma consume_frame self env identifier db k :
  k <> generateKey self identifier ->
  (consume self env identifier db).2 !! k
  = swept (sweepDown (outage env)) (sweepAt (clock env)) db !! k.
Proof.
  intros Hne. run_call.
  destruct (findDown (outage env)); simpl; [done|].
  destruct (swept _ _ db !! generateKey self identifier) as [r|] eqn:Hk.
  - destruct (bool_decide (expiresAt r < _)).
    + destruct (writeDown (outage env)); simpl; [done|].
      by rewrite lookup_insert_ne.
    + destruct (bool_decide (count r >= _)); [done|].
      destruct (writeDown (outage env)); simpl; [done|].
      rewrite Hk. simpl. by rewrite lookup_insert_ne.
  - destruct (writeDown (outage env)); simpl; [done|].
    by rewrite lookup_insert_ne.
Qed.

(** The outcome of [consume] depends on the swept table only through the
    record under its key. *)
Lemma consume_reads_key self env identifier (a b : Table) :
  swept (sweepDown (outage env)) (sweepAt (clock env)) a
    !! generateKey self identifier
  = swept (sweepDown (outage env)) (sweepAt (clock env)) b
      !! generateKey self identifier ->
  (consume self env identifier a).1 = (consume self env identifier b).1.
Proof.
  intros Hsame. run_call.
  destruct (findDown (outage env)); simpl; [done|].
  rewrite Hsame.
  destruct (swept _ _ b !! generateKey self identifier) as [r|] eqn:Hk.
  - destruct (bool_decide (expiresAt r < _)).
    + destruct (writeDown (outage env)); simpl; [done|]. by rewrite Hsame, Hk.
    + destruct (bool_decide (count r >= _)); [done|].
      destruct (writeDown (outage env)); simpl; [done|]. by rewrite Hsame, Hk.
  - destruct (writeDown (outage env)); simpl; [done|]. by rewrite Hsame, Hk.
Qed.

Lemma check_reads_key self env identifier (a b : Table) :
  swept (sweepDown (outage env)) (sweepAt (clock env)) a
    !! generateKey self identifier
  = swept (sweepDown (outage env)) (sweepAt (clock env)) b
      !! generateKey self identifier ->
  (check self env identifier a).1 = (check self env identifier b).1.
Proof.
  intros Hsame. run_call.
  destruct (findDown (outage env)); simpl; [done|].
  rewrite Hsame.
  destruct (swept _ _ b !! generateKey self identifier) as [r|]; [|done].
  by destruct (bool_decide _).
Qed.

(** *** Consuming inside one window *)

Lemma consume_all_app self xs ys db :
  consume_all self (xs ++ ys) db
  = let '(os1, db1) := consume_all self xs db in
    let '(os2, db2) := consume_all self ys db1 in
    (os1 ++ os2, db2).
Proof.
  revert db. induction xs as [|[env identifier] xs IH]; intros db; simpl.
  - by destruct (consume_all self ys db).
  - destruct (consume self env identifier db) as [o db1].
    rewrite IH. destruct (consume_all self xs db1) as [os1 db2].
    by destruct (consume_all self ys db2).
Qed.

(** From a live record with count [c], the next [maxRequests - c] calls in
    the window succeed and count up to [maxRequests]. *)
Lemma consume_all_in_window self identifier closes envs : forall (c : nat) db,
  db !! generateKey self identifier
    = Some {| count := Z.of_nat c; expiresAt := closes |} ->
  Z.of_nat c + Z.of_nat (length envs) = maxRequests self ->
  Forall (fun env => core_up (outage env)) envs ->
  Forall (within_window closes) envs ->
  exists db',
    consume_all self (map (fun env => (env, identifier)) envs) db
    = (map (nth_success self closes) (seq c (length envs)), db')
    /\ db' !! generateKey self identifier
       = Some {| count := maxRequests self; expiresAt := closes |}.
Proof.
  induction envs as [|env envs IH]; intros c db Hrow Hlen Hup Hin; simpl in *.
  - exists db. split; [done|]. rewrite Hrow. do 2 f_equal. lia.
  - apply Forall_cons in Hup as [Hup1 Hup].
    apply Forall_cons in Hin as [[Hs Hn] Hin].
    assert (Hk : swept (sweepDown (outage env)) (sweepAt (clock env)) db
                   !! generateKey self identifier
                 = Some {| count := Z.of_nat c; expiresAt := closes |})
      by (by apply swept_lookup_live).
    rewrite (consume_increment self env identifier db _ Hup1 Hk)
      by (simpl; lia).
    simpl.
    destruct (IH (S c)
                (<[generateKey self identifier :=
                     {| count := Z.of_nat c + 1; expiresAt := closes |}]>
                   (swept (sweepDown (outage env)) (sweepAt (clock env)) db)))
      as (db' & Hrun & Hrow'); [| lia | done | done |].
    { rewrite lookup_insert_eq. do 2 f_equal. lia. }
    rewrite Hrun. exists db'. split; [|done].
    f_equal. f_equal. unfold nth_success, info_of, Math_max. simpl.
    do 2 f_equal. lia.
Qed.

(** *** The six ways a [consume] call can go *)

Lemma consume_new_window_down self env identifier db why :
  findDown (outage env) = None ->
  stale (swept (sweepDown (outage env)) (sweepAt (clock env)) db
           !! generateKey self identifier) (nowAt (clock env)) ->
  writeDown (outage env) = Some why ->
  consume self env identifier db
  = (Rejected (ThrowStorage why),
     swept (sweepDown (outage env)) (sweepAt (clock env)) db).
Proof.
  intros Hf Hstale Hw. run_call. rewrite Hf; simpl.
  destruct (swept (sweepDown (outage env)) (sweepAt (clock env)) db
              !! generateKey self identifier) as [r|] eqn:Hk.
  - rewrite bool_decide_true by (by apply Hstale). by rewrite Hw.
  - by rewrite Hw.
Qed.

Lemma consume_increment_down self env identifier db r why :
  findDown (outage env) = None ->
  swept (sweepDown (outage env)) (sweepAt (clock env)) db
    !! generateKey self identifier = Some r ->
  nowAt (clock env) <= expiresAt r ->
  count r < maxRequests self ->
  writeDown (outage env) = Some why ->
  consume self env identifier db
  = (Rejected (ThrowStorage why),
     swept (sweepDown (outage env)) (sweepAt (clock env)) db).
Proof.
  intros Hf Hk Hlive Hroom Hw. run_call. rewrite Hf; simpl. rewrite Hk.
  rewrite bool_decide_false by lia. rewrite bool_decide_false by lia.
  by rewrite Hw.
Qed.

Lemma consume_cases self env identifier db :
  consume_case self env identifier db (consume self env identifier db).
Proof.
  destruct (findDown (outage env)) as [why|] eqn:Hf.
  { rewrite (consume_find_down _ _ _ _ _ Hf). by constructor. }
  destruct (swept (sweepDown (outage env)) (sweepAt (clock env)) db
              !! generateKey self identifier) as [r|] eqn:Hk.
  - destruct (decide (expiresAt r < nowAt (clock env))) as [Hexp|Hlive].
    + assert (Hstale : stale (swept (sweepDown (outage env))
                                (sweepAt (clock env)) db
                                !! generateKey self identifier)
                         (nowAt (clock env)))
        by (intros r' Hr'; congruence).
      destruct (writeDown (outage env)) as [why|] eqn:Hw.
      * rewrite (consume_new_window_down _ _ _ _ why Hf Hstale Hw).
        by apply case_new_window_down.
      * rewrite (consume_renew self env identifier db r) by done.
        pose proof (case_new_window self env identifier db
                      (conj Hf Hw) Hstale) as Hcase.
        by rewrite Hk in Hcase.
    + destruct (decide (maxRequests self <= count r)) as [Hfull|Hroom].
      * rewrite (consume_reject self env identifier db r) by (auto; lia).
        apply case_exhausted; auto; lia.
      * destruct (writeDown (outage env)) as [why|] eqn:Hw.
        -- rewrite (consume_increment_down self env identifier db r why)
             by (auto; lia).
           apply (case_increment_down _ _ _ _ why r); auto; lia.
        -- rewrite (consume_increment self env identifier db r)
             by (auto; try done; lia).
           apply case_increment; auto; try done; lia.
  - assert (Hstale : stale (swept (sweepDown (outage env))
                              (sweepAt (clock env)) db
                              !! generateKey self identifier)
                       (nowAt (clock env)))
      by (intros r' Hr'; congruence).
    destruct (writeDown (outage env)) as [why|] eqn:Hw.
    + rewrite (consume_new_window_down _ _ _ _ why Hf Hstale Hw).
      by apply case_new_window_down.
    + rewrite (consume_create self env identifier db) by done.
      pose proof (case_new_window self env identifier db
                    (conj Hf Hw) Hstale) as Hcase.
      by rewrite Hk in Hcase.
Qed.

(** *** The count of a stored record *)

(** The record [consume] leaves under its key: the one the sweep left, a
    first request, or one more request on a record that had room. *)
Lemma consume_key_row self env identifier db r' :
  (consume self env identifier db).2 !! generateKey self identifier = Some r' ->
  swept (sweepDown (outage env)) (sweepAt (clock env)) db
    !! generateKey self identifier = Some r'
  \/ count r' = 1
  \/ exists r,
       swept (sweepDown (outage env)) (sweepAt (clock env)) db
         !! generateKey self identifier = Some r
       /\ count r < maxRequests self
       /\ count r' = count r + 1.
Proof.
  destruct (consume_cases self env identifier db)
    as [why Hf | why Hf Hstale Hw | Hup Hstale | r Hf Hk Hlive Hfull
        | why r Hf Hk Hlive Hroom Hw | r Hup Hk Hlive Hroom]; simpl;
    try (by left).
  - rewrite lookup_insert_eq. intros [= <-]. right; left.
    by destruct (swept _ _ db !! generateKey self identifier).
  - rewrite lookup_insert_eq. intros [= <-]. right; right. by exists r.
Qed.

Lemma counts_bounded_swept self down t db :
  counts_bounded self db -> counts_bounded self (swept down t db).
Proof. intros Hdb k r Hk. apply (Hdb k). by apply swept_lookup_Some in Hk. Qed.

Lemma counts_bounded_consume self env identifier db :
  1 <= maxRequests self ->
  counts_bounded self db ->
  counts_bounded self (consume self env identifier db).2.
Proof.
  intros HN Hdb k r' Hk.
  pose proof (counts_bounded_swept self (sweepDown (outage env))
                (sweepAt (clock env)) db Hdb) as Hsw.
  destruct (decide (k = generateKey self identifier)) as [->|Hne].
  - apply consume_key_row in Hk as [Hsame | [Hone | (r & Hr & Hroom & Hinc)]].
    + by apply (Hsw _ _ Hsame).
    + lia.
    + lia.
  - rewrite consume_frame in Hk by done. by apply (Hsw _ _ Hk).
Qed.

Lemma counts_bounded_reachable self db :
  1 <= maxRequests self -> reachable self db -> counts_bounded self db.
Proof.
  intros HN Hreach. induction Hreach as [|env identifier db _ IH
                                          |env identifier db _ IH
                                          |env identifier db _ IH].
  - intros k r Hk. by rewrite lookup_empty in Hk.
  - rewrite check_table. by apply counts_bounded_swept.
  - by apply counts_bounded_consume.
  - intros k r. run_call. destruct (writeDown (outage env)); simpl.
    + apply IH.
    + intros Hk. apply lookup_delete_Some in Hk as [_ Hk]. by apply (IH k).
Qed.

(** *** Store failures *)

Lemma check_resolves self env identifier db :
  findDown (outage env) = None ->
  exists info, (check self env identifier db).1 = Resolved info.
Proof.
  intros Hf.
  destruct (swept (sweepDown (outage env)) (sweepAt (clock env)) db
              !! generateKey self identifier) as [r|] eqn:Hk.
  - destruct (decide (expiresAt r < nowAt (clock env))) as [Hexp|Hlive].
    + rewrite check_hypothetical; [by eexists | done |].
      intros r' Hr'. congruence.
    + rewrite (check_live self env identifier db r) by (auto; lia).
      by eexists.
  - rewrite check_hypothetical; [by eexists | done |].
    intros r' Hr'. congruence.
Qed.

(** *** Tables that differ in expired rows only *)

Lemma agree_for_refl nows (a : Table) : agree_for nows a a.
Proof. intros k. by left. Qed.

Lemma agree_for_trans nows (a b c : Table) :
  agree_for nows a b -> agree_for nows b c -> agree_for nows a c.
Proof.
  intros Hab Hbc k. destruct (Hab k) as [Heq|[Ha Hb]], (Hbc k) as [Heq'|[Hb' Hc]].
  - left. congruence.
  - right. split; [|done]. by rewrite Heq.
  - right. split; [done|]. by rewrite <- Heq'.
  - by right.
Qed.

Lemma agree_for_tail now nows (a b : Table) :
  agree_for (now :: nows) a b -> agree_for nows a b.
Proof.
  intros Hab k. destruct (Hab k) as [Heq|[Ha Hb]]; [by left|right].
  split; intros r Hr; [apply Ha in Hr | apply Hb in Hr];
    by apply Forall_cons in Hr as [_ ?].
Qed.

Lemma swept_lookup_same down t (a b : Table) k :
  a !! k = b !! k -> swept down t a !! k = swept down t b !! k.
Proof.
  intros Heq. destruct down as [why|]; simpl; [done|].
  by rewrite !map_lookup_filter, Heq.
Qed.

Lemma dead_for_swept nows down t (a : Table) k :
  dead_for nows (a !! k) -> dead_for nows (swept down t a !! k).
Proof. intros Ha r Hr. apply Ha. by apply swept_lookup_Some in Hr. Qed.

Lemma agree_for_swept nows down t (a b : Table) :
  agree_for nows a b -> agree_for nows (swept down t a) (swept down t b).
Proof.
  intros Hab k. destruct (Hab k) as [Heq|[Ha Hb]].
  - left. by apply swept_lookup_same.
  - right. split; by apply dead_for_swept.
Qed.

(** A sweep made no later than the calls to come removes dead rows only. *)
Lemma agree_for_sweep nows down t (a : Table) :
  Forall (fun now => t <= now) nows -> agree_for nows (swept down t a) a.
Proof.
  intros Hearly k.
  destruct (swept_lookup_cases down t a k) as [Heq | [Hnone (r & Hr & Hexp)]];
    [by left|right].
  split.
  - intros r' Hr'. congruence.
  - intros r' Hr'. assert (r' = r) as -> by congruence.
    eapply Forall_impl; [exact Hearly|]. simpl. intros now Hnow. lia.
Qed.

Lemma agree_for_insert nows (a b : Table) k row :
  agree_for nows a b -> agree_for nows (<[k := row]> a) (<[k := row]> b).
Proof.
  intros Hab k'. destruct (decide (k = k')) as [->|Hne].
  - left. by rewrite !lookup_insert_eq.
  - rewrite !lookup_insert_ne by done. apply Hab.
Qed.

Lemma new_window_row_one_read self env found found' :
  one_reset_read (clock env) ->
  new_window_row self env found = new_window_row self env found'.
Proof.
  unfold one_reset_read. intros Hone.
  destruct found, found'; simpl; by rewrite ?Hone.
Qed.

(** The new-window case of [consume] on any table, up or down. *)
Lemma consume_stale self env identifier db :
  findDown (outage env) = None ->
  stale (swept (sweepDown (outage env)) (sweepAt (clock env)) db
           !! generateKey self identifier) (nowAt (clock env)) ->
  consume self env identifier db
  = match writeDown (outage env) with
    | Some why =>
        (Rejected (ThrowStorage why),
         swept (sweepDown (outage env)) (sweepAt (clock env)) db)
    | None =>
        let row :=
          new_window_row self env
            (swept (sweepDown (outage env)) (sweepAt (clock env)) db
               !! generateKey self identifier) in
        (Resolved (info_of self row),
         <[generateKey self identifier := row]>
           (swept (sweepDown (outage env)) (sweepAt (clock env)) db))
    end.
Proof.
  intros Hf Hstale. destruct (writeDown (outage env)) as [why|] eqn:Hw.
  - by apply consume_new_window_down.
  - destruct (swept (sweepDown (outage env)) (sweepAt (clock env)) db
                !! generateKey self identifier) as [r|] eqn:Hk.
    + apply (consume_renew self env identifier db r); [done|done|].
      by apply Hstale.
    + by apply consume_create.
Qed.

(** One [consume] cannot tell two such tables apart, and keeps them so. *)
Lemma consume_agree self env identifier nows (a b : Table) :
  agree_for (nowAt (clock env) :: nows) a b ->
  one_reset_read (clock env) ->
  (consume self env identifier a).1 = (consume self env identifier b).1
  /\ agree_for (nowAt (clock env) :: nows)
       (consume self env identifier a).2 (consume self env identifier b).2.
Proof.
  intros Hab Hone.
  pose proof (agree_for_swept _ (sweepDown (outage env)) (sweepAt (clock env))
                _ _ Hab) as Hsw.
  destruct (Hsw (generateKey self identifier)) as [Heq|[Ha Hb]].
  - destruct (consume_cases self env identifier a)
      as [why Hf | why Hf Hstale Hw | [Hf Hw] Hstale | r Hf Hk Hlive Hfull
          | why r Hf Hk Hlive Hroom Hw | r [Hf Hw] Hk Hlive Hroom]; simpl.
    + by rewrite (consume_find_down _ _ _ _ _ Hf).
    + rewrite (consume_new_window_down self env identifier b why)
        by (rewrite <- ?Heq; done).
      done.
    + rewrite (consume_stale self env identifier b) by (rewrite <- ?Heq; done).
      rewrite Hw, <- Heq. simpl. split; [done|]. by apply agree_for_insert.
    + rewrite (consume_reject self env identifier b r)
        by (rewrite <- ?Heq; done).
      done.
    + rewrite (consume_increment_down self env identifier b r why)
        by (rewrite <- ?Heq; done).
      done.
    + rewrite (consume_increment self env identifier b r)
        by (rewrite <- ?Heq; done).
      simpl. split; [done|]. by apply agree_for_insert.
  - assert (Hsa : stale (swept (sweepDown (outage env)) (sweepAt (clock env)) a
                           !! generateKey self identifier) (nowAt (clock env))).
    { intros r Hr. apply Ha in Hr. by apply Forall_cons in Hr as [? _]. }
    assert (Hsb : stale (swept (sweepDown (outage env)) (sweepAt (clock env)) b
                           !! generateKey self identifier) (nowAt (clock env))).
    { intros r Hr. apply Hb in Hr. by apply Forall_cons in Hr as [? _]. }
    destruct (findDown (outage env)) as [why|] eqn:Hf.
    { by rewrite !(consume_find_down _ _ _ _ _ Hf). }
    rewrite (consume_stale self env identifier a),
            (consume_stale self env identifier b) by done.
    destruct (writeDown (outage env)) as [why|]; [done|]. simpl.
    rewrite (new_window_row_one_read self env
               (swept (sweepDown (outage env)) (sweepAt (clock env)) a
                  !! generateKey self identifier)
               (swept (sweepDown (outage env)) (sweepAt (clock env)) b
                  !! generateKey self identifier) Hone).
    split; [done|]. by apply agree_for_insert.
Qed.

Lemma consume_all_agree self calls : forall (a b : Table),
  agree_for (map (fun call => nowAt (clock call.1)) calls) a b ->
  Forall (fun call => one_reset_read (clock call.1)) calls ->
  (consume_all self calls a).1 = (consume_all self calls b).1.
Proof.
  induction calls as [|[env identifier] calls IH]; intros a b Hab Hone;
    simpl in *; [done|].
  apply Forall_cons in Hone as [Hone1 Hone]. simpl in Hone1.
  destruct (consume_agree self env identifier _ a b Hab Hone1) as [Hout Htab].
  destruct (consume self env identifier a) as [oa a1].
  destruct (consume self env identifier b) as [ob b1]. simpl in *.
  apply agree_for_tail in Htab.
  specialize (IH a1 b1 Htab Hone).
  destruct (consume_all self calls a1) as [osa a2].
  destruct (consume_all self calls b1) as [osb b2]. simpl in *.
  congruence.
Qed.

Lemma check_all_agree self nows checks : forall (db : Table),
  Forall (fun chk => Forall (fun now => sweepAt (clock chk.1) <= now) nows) checks ->
  agree_for nows (check_all self checks db).2 db.
Proof.
  induction checks as [|[env identifier] checks IH]; intros db Hearly; simpl.
  - apply agree_for_refl.
  - apply Forall_cons in Hearly as [Hearly1 Hearly]. simpl in Hearly1.
    pose proof (check_table self env identifier db) as Htab.
    destruct (check self env identifier db) as [o db1]. simpl in Htab. subst db1.
    specialize (IH (swept (sweepDown (outage env)) (sweepAt (clock env)) db) Hearly).
    destruct (check_all self checks _) as [os db2]. simpl in *.
    eapply agree_for_trans; [exact IH|]. by apply agree_for_sweep.
Qed.

(** [consume] sees the table through the sweep only. *)
Lemma consume_by_swept self env identifier (a b : Table) :
  swept (sweepDown (outage env)) (sweepAt (clock env)) a
  = swept (sweepDown (outage env)) (sweepAt (clock env)) b ->
  consume self env identifier a = consume self env identifier b.
Proof. intros Heq. run_call. by rewrite Heq. Qed.

(** A sweep that is up removes every row that is dead for it, so it makes
    two tables that differ in such rows equal. *)
Lemma agree_for_swept_equal t nows (a b : Table) :
  agree_for (t :: nows) a b -> swept None t a = swept None t b.
Proof.
  intros Hab. apply map_eq. intros k.
  destruct (Hab k) as [Heq | [Ha Hb]]; [by apply swept_lookup_same|].
  assert (Hgone : forall (db : Table),
            dead_for (t :: nows) (db !! k) -> swept None t db !! k = None).
  { intros db Hdead. destruct (swept None t db !! k) as [r|] eqn:Hr; [|done].
    simpl in Hr. apply map_lookup_filter_Some in Hr as [Hr Hkeep].
    apply Hdead in Hr. apply Forall_cons in Hr as [Hexp _]. simpl in Hkeep. lia. }
  by rewrite !Hgone.
Qed.

Lemma agree_for_drop marked nows (a b : Table) :
  agree_for (marked ++ nows) a b -> agree_for nows a b.
Proof.
  induction marked as [|m marked IH]; [done|].
  intros Hab. apply IH. by apply agree_for_tail in Hab.
Qed.

Lemma agree_for_swap m1 m2 nows (a b : Table) :
  agree_for (m1 :: m2 :: nows) a b -> agree_for (m2 :: m1 :: nows) a b.
Proof.
  intros Hab k. destruct (Hab k) as [Heq | [Ha Hb]]; [by left|right].
  split; intros r Hr; [apply Ha in Hr | apply Hb in Hr];
    apply Forall_cons in Hr as [H1 Hr]; apply Forall_cons in Hr as [H2 Hr];
    by repeat constructor.
Qed.

(** One [consume] cannot tell apart two tables that differ in rows dead for
    it, when its upsert reads one clock value or its own sweep is up. *)
Lemma consume_agree_marks self env identifier nows (a b : Table) :
  agree_for (marks env ++ nows) a b ->
  one_reset_read (clock env) \/ sweepDown (outage env) = None ->
  (consume self env identifier a).1 = (consume self env identifier b).1
  /\ agree_for nows (consume self env identifier a).2
                    (consume self env identifier b).2.
Proof.
  unfold marks. intros Hab Hsettled.
  destruct (decide (resetAt (clock env) = createAt (clock env))) as [Hone|Htick].
  - destruct (consume_agree self env identifier nows a b Hab Hone) as [Hout Htab].
    split; [done|]. by apply agree_for_tail in Htab.
  - destruct Hsettled as [Hone|Hup]; [done|].
    simpl in Hab. apply agree_for_swap in Hab.
    pose proof (agree_for_swept_equal _ _ _ _ Hab) as Heq.
    rewrite (consume_by_swept self env identifier a b) by (by rewrite Hup).
    split; [done|]. apply agree_for_refl.
Qed.

Lemma consume_all_agree_marks self calls : forall (a b : Table),
  agree_for (concat (map (fun call => marks call.1) calls)) a b ->
  Forall (fun call => one_reset_read (clock call.1)
                      \/ sweepDown (outage call.1) = None) calls ->
  (consume_all self calls a).1 = (consume_all self calls b).1.
Proof.
  induction calls as [|[env identifier] calls IH]; intros a b Hab Hsettled;
    simpl in *; [done|].
  apply Forall_cons in Hsettled as [Hfirst Hsettled]. simpl in Hfirst.
  destruct (consume_agree_marks self env identifier _ a b Hab Hfirst)
    as [Hout Htab].
  destruct (consume self env identifier a) as [oa a1].
  destruct (consume self env identifier b) as [ob b1]. simpl in *.
  specialize (IH a1 b1 Htab Hsettled).
  destruct (consume_all self calls a1) as [osa a2].
  destruct (consume_all self calls b1) as [osb b2]. simpl in *.
  congruence.
Qed.

Lemma settled_after_marks chk (calls : list (Env * string)) :
  Forall (fun call => settled_after chk call.1) calls ->
  Forall (fun mark => sweepAt (clock chk) <= mark)
    (concat (map (fun call => marks call.1) calls)).
Proof.
  induction calls as [|[env identifier] calls IH]; intros Hcalls; simpl;
    [constructor|].
  apply Forall_cons in Hcalls as [[Hnow Hsettled] Hcalls]. simpl in *.
  apply Forall_app. split; [|by apply IH].
  unfold marks.
  destruct (decide (resetAt (clock env) = createAt (clock env))) as [Hone|Htick].
  - by repeat constructor.
  - destruct Hsettled as [Hone|[_ Hsweep]]; [done|]. by repeat constructor.
Qed.

(** *** Counts on a shared table *)

Lemma counts_below_consume self env identifier (db : Table) M :
  1 <= maxRequests self <= M ->
  (forall k r, db !! k = Some r -> count r <= M) ->
  forall k r, (consume self env identifier db).2 !! k = Some r -> count r <= M.
Proof.
  intros HN Hdb k r' Hk.
  assert (Hsw : forall k r,
            swept (sweepDown (outage env)) (sweepAt (clock env)) db !! k = Some r ->
            count r <= M).
  { intros k0 r0 Hr0. apply (Hdb k0). by apply swept_lookup_Some in Hr0. }
  destruct (decide (k = generateKey self identifier)) as [->|Hne].
  - apply consume_key_row in Hk as [Hsame | [Hone | (r & Hr & Hroom & Hinc)]].
    + by apply (Hsw _ _ Hsame).
    + lia.
    + lia.
  - rewrite consume_frame in Hk by done. by apply (Hsw _ _ Hk).
Qed.

Lemma counts_below_reachable_shared fleet M (db : Table) :
  Forall (fun limiter => 1 <= maxRequests limiter <= M) fleet ->
  reachable_shared fleet db ->
  forall k r, db !! k = Some r -> count r <= M.
Proof.
  intros Hfleet Hreach.
  induction Hreach as [|self env identifier db Hin _ IH
                        |self env identifier db Hin _ IH
                        |self env identifier db Hin _ IH].
  - intros k r Hk. by rewrite lookup_empty in Hk.
  - rewrite check_table. intros k r Hk. apply (IH k).
    by apply swept_lookup_Some in Hk.
  - apply counts_below_consume; [|done].
    rewrite Forall_forall in Hfleet. by apply Hfleet.
  - intros k r. run_call. destruct (writeDown (outage env)); simpl.
    + apply IH.
    + intros Hk. apply lookup_delete_Some in Hk as [_ Hk]. by apply (IH k).
Qed.

Lemma consume_all_reachable_shared fleet self calls : forall (db : Table),
  self ∈ fleet ->
  reachable_shared fleet db ->
  reachable_shared fleet (consume_all self calls db).2.
Proof.
  induction calls as [|[env identifier] calls IH]; intros db Hin Hreach; simpl;
    [done|].
  pose proof (shared_consume fleet self env identifier db Hin Hreach) as Hstep.
  destruct (consume self env identifier db) as [o db1]. simpl in Hstep.
  specialize (IH db1 Hin Hstep).
  by destruct (consume_all self calls db1) as [os db2].
Qed.

(** *** The scenarios of the spec, run *)

(** [maxRequests = 3], [windowMs = 1000]: three calls succeed with
    [remaining] 2, 1, 0, the fourth is rejected with [retryAfter] 1, and a
    call 1100 ms after the first starts a new window. *)
Example scenario_quota :
  let self := {| maxRequests := 3; windowMs := 1000 |} in
  let call t := ({| clock := instant t; outage := all_up |}, "a"%string) in
  (consume_all self [call 0; call 10; call 20; call 30; call 1100] ∅).1
  = [ Resolved {| limit := 3; remaining := 2; reset := 1 |};
      Resolved {| limit := 3; remaining := 1; reset := 1 |};
      Resolved {| limit := 3; remaining := 0; reset := 1 |};
      Rejected (ThrowRateLimit (new_RateLimitError 1));
      Resolved {| limit := 3; remaining := 2; reset := 3 |} ].
Proof. reflexivity. Qed.

(** [check("b")] on a key never consumed creates no row, and the [consume]
    after it starts at [remaining = N - 1]. *)
Example scenario_check :
  let self := {| maxRequests := 3; windowMs := 1000 |} in
  let env := {| clock := instant 5; outage := all_up |} in
  check self env "b" ∅
  = (Resolved {| limit := 3; remaining := 3; reset := 2 |}, ∅)
  /\ (consume self env "b" (check self env "b" ∅).2).1
     = Resolved {| limit := 3; remaining := 2; reset := 2 |}.
Proof. split; reflexivity. Qed.

(** ** The claims *)

(** C1.  A limiter with [maxRequests = N] is called [N + 1] times for a key
    that has no record, the store's read and write being up in every call:
    the first call opens a window that closes [windowMs] after its clock
    read, and the others are made no later than that.  Then the first [N]
    calls succeed, the [i]-th of them (from 0) with
    [remaining = N - 1 - i], so from [N - 1] down to 0, and the last call
    fails with a [RateLimitError]. *)
Theorem consume_quota_per_window self identifier db first rest last :
  db !! generateKey self identifier = None ->
  Z.of_nat (length (first :: rest)) = maxRequests self ->
  Forall (fun env => core_up (outage env)) (first :: rest ++ [last]) ->
  let closes := createAt (clock first) + windowMs self in
  Forall (within_window closes) (rest ++ [last]) ->
  (consume_all self
     (map (fun env => (env, identifier)) (first :: rest ++ [last])) db).1
  = map (fun i : nat =>
           Resolved {| limit := maxRequests self;
                       remaining := maxRequests self - 1 - Z.of_nat i;
                       reset := Math_ceil_div closes 1000 |})
        (seq 0 (length (first :: rest)))
    ++ [Rejected (ThrowRateLimit (new_RateLimitError
          (Math_ceil_div (closes - nowAt (clock last)) 1000)))].
Proof.
  intros Hnone Hlen Hup closes Hin.
  fold (nth_success self closes).
  apply Forall_cons in Hup as [Hup1 Hup].
  apply Forall_app in Hup as [Hup Huplast].
  apply Forall_app in Hin as [Hin Hinlast].
  rewrite Forall_singleton in Huplast. rewrite Forall_singleton in Hinlast.
  simpl in Hlen. subst closes. simpl.
  rewrite (consume_create self first identifier db Hup1)
    by (by apply swept_lookup_None).
  simpl. rewrite map_app, consume_all_app.
  set (closes := createAt (clock first) + windowMs self) in *.
  destruct (consume_all_in_window self identifier closes rest 1
              (<[generateKey self identifier :=
                   {| count := 1; expiresAt := closes |}]>
                 (swept (sweepDown (outage first)) (sweepAt (clock first)) db)))
    as (db' & Hrun & Hrow); [by rewrite lookup_insert_eq | lia | done | done |].
  rewrite Hrun. simpl.
  destruct Hinlast as [Hs Hn]. destruct Huplast as [Hf _].
  rewrite (consume_reject self last identifier db'
             {| count := maxRequests self; expiresAt := closes |})
    by (auto; try (by apply swept_lookup_live); simpl; lia).
  simpl. f_equal.
  unfold nth_success. rewrite info_of_first by lia. do 2 f_equal. lia.
Qed.

Lemma consume_quota_per_window_witness :
  let self := {| maxRequests := 3; windowMs := 1000 |} in
  let call t := {| clock := instant t; outage := all_up |} in
  (consume_all self
     (map (fun env => (env, "a"%string)) (call 0 :: [call 10; call 20] ++ [call 1000]))
     ∅).1
  = map (fun i : nat =>
           Resolved {| limit := 3;
                       remaining := 3 - 1 - Z.of_nat i;
                       reset := Math_ceil_div (0 + 1000) 1000 |})
        (seq 0 3)
    ++ [Rejected (ThrowRateLimit (new_RateLimitError
          (Math_ceil_div (0 + 1000 - 1000) 1000)))].
Proof.
  intros self call.
  apply (consume_quota_per_window self "a" ∅ (call 0) [call 10; call 20] (call 1000)).
  - reflexivity.
  - reflexivity.
  - repeat constructor.
  - repeat constructor; simpl; lia.
Defined.

(** C2.  When [consume] is called for a key whose record is present and
    live ([expiresAt] not before the call's [now]) with
    [count >= maxRequests], and the clock did not run backwards between the
    sweep and [now], the call fails with a [RateLimitError] (status 429, code
    RATE_LIMIT_EXCEEDED) whose [retryAfter] is
    [ceil((expiresAt - now) / 1000)]; that value is at least 0; and the
    stored record of the key is the same after the call. *)
Theorem consume_exhausted_rejects self env identifier db r :
  db !! generateKey self identifier = Some r ->
  nowAt (clock env) <= expiresAt r ->
  count r >= maxRequests self ->
  sweepAt (clock env) <= nowAt (clock env) ->
  findDown (outage env) = None ->
  let retryAfterSeconds :=
    Math_ceil_div (expiresAt r - nowAt (clock env)) 1000 in
  exists db',
    consume self env identifier db
    = (Rejected (ThrowRateLimit
         {| message := "Too many requests. Please try again later.";
            statusCode := 429;
            errorCode := RATE_LIMIT_EXCEEDED;
            isOperational := true;
            retryAfter := retryAfterSeconds |}),
       db')
    /\ 0 <= retryAfterSeconds
    /\ db' !! generateKey self identifier = Some r.
Proof.
  intros Hk Hlive Hfull Hclock Hf retry.
  assert (Hk' : swept (sweepDown (outage env)) (sweepAt (clock env)) db
                  !! generateKey self identifier = Some r)
    by (apply swept_lookup_live; [done|lia]).
  eexists. split; [|split].
  - rewrite (consume_reject self env identifier db r) by (auto; lia).
    reflexivity.
  - apply Math_ceil_div_nonneg; lia.
  - done.
Qed.

Lemma consume_exhausted_rejects_witness :
  exists db',
    consume {| maxRequests := 3; windowMs := 1000 |}
      {| clock := instant 250; outage := all_up |} "login:10.0.0.1"
      {[ "rate_limit:login:10.0.0.1"%string := {| count := 3; expiresAt := 1000 |} ]}
    = (Rejected (ThrowRateLimit
         {| message := "Too many requests. Please try again later.";
            statusCode := 429;
            errorCode := RATE_LIMIT_EXCEEDED;
            isOperational := true;
            retryAfter := Math_ceil_div (1000 - 250) 1000 |}),
       db')
    /\ 0 <= Math_ceil_div (1000 - 250) 1000
    /\ db' !! "rate_limit:login:10.0.0.1"%string
       = Some {| count := 3; expiresAt := 1000 |}.
Proof.
  apply (consume_exhausted_rejects
           {| maxRequests := 3; windowMs := 1000 |}
           {| clock := instant 250; outage := all_up |} "login:10.0.0.1"
           {[ "rate_limit:login:10.0.0.1"%string := {| count := 3; expiresAt := 1000 |} ]}
           {| count := 3; expiresAt := 1000 |});
    simpl; first [reflexivity | lia].
Defined.

(** C3.  For a limiter with [maxRequests >= 1] and with the store's read
    and write up: when the record of the key is absent, or present with
    [expiresAt < now], [consume] succeeds, leaves the record
    [{count: 1, expiresAt: t + windowMs}] under the key and returns
    [remaining = maxRequests - 1], where [t] is the clock read of the
    [calculateResetTime()] the upsert uses (the [create] one when the record
    was absent); [t] is the call's [now] whenever the call's clock reads
    agree.  Nothing is assumed about how the table came about, so rejections
    in the previous window make no difference. *)
Theorem consume_absent_or_expired self env identifier db :
  1 <= maxRequests self ->
  core_up (outage env) ->
  (db !! generateKey self identifier = None
   \/ exists r, db !! generateKey self identifier = Some r
                /\ expiresAt r < nowAt (clock env)) ->
  exists t db',
    (t = resetAt (clock env) \/ t = createAt (clock env))
    /\ (db !! generateKey self identifier = None -> t = createAt (clock env))
    /\ (forall now, clock env = instant now -> t = now)
    /\ consume self env identifier db
       = (Resolved {| limit := maxRequests self;
                      remaining := maxRequests self - 1;
                      reset := Math_ceil_div (t + windowMs self) 1000 |},
          db')
    /\ db' !! generateKey self identifier
       = Some {| count := 1; expiresAt := t + windowMs self |}.
Proof.
  intros HN Hup Hcase.
  destruct (consume_new_window self env identifier db Hup)
    as (t & db' & Ht & Habs & Hrun & Hrow & _).
  { intros r Hr. destruct Hcase as [Hnone | (r' & Hr' & Hexp)]; congruence. }
  exists t, db'. split; [done|]. split; [done|].
  split.
  { intros now Hclk. rewrite Hclk in Ht. simpl in Ht. by destruct Ht. }
  split; [|done].
  by rewrite Hrun, info_of_first.
Qed.

Lemma consume_absent_or_expired_witness :
  exists t db',
    (t = 5000 \/ t = 5000)
    /\ (({[ "rate_limit:a"%string := {| count := 3; expiresAt := 4000 |} ]} : Table)
          !! generateKey {| maxRequests := 3; windowMs := 1000 |} "a" = None ->
        t = 5000)
    /\ (forall now, instant 5000 = instant now -> t = now)
    /\ consume {| maxRequests := 3; windowMs := 1000 |}
         {| clock := instant 5000; outage := all_up |} "a"
         {[ "rate_limit:a"%string := {| count := 3; expiresAt := 4000 |} ]}
       = (Resolved {| limit := 3; remaining := 3 - 1;
                      reset := Math_ceil_div (t + 1000) 1000 |}, db')
    /\ db' !! generateKey {| maxRequests := 3; windowMs := 1000 |} "a"
       = Some {| count := 1; expiresAt := t + 1000 |}.
Proof.
  apply (consume_absent_or_expired
           {| maxRequests := 3; windowMs := 1000 |}
           {| clock := instant 5000; outage := all_up |} "a"
           {[ "rate_limit:a"%string := {| count := 3; expiresAt := 4000 |} ]}).
  - simpl. lia.
  - split; reflexivity.
  - right. exists {| count := 3; expiresAt := 4000 |}.
    split; [reflexivity | simpl; lia].
Defined.

(** C4, as the code has it.  For every limiter object and identifier, the
    storage key is ["rate_limit:" + identifier]: it has no namespace part and
    does not depend on the limiter, so every limiter object addresses the
    same record for the same identifier, while two identifiers never share a
    key.  This key is the one [check], [consume] and [reset] use: none of
    them changes a record under another key beyond the sweep of expired
    rows, [reset] removes the record under it, and the outcomes of [check]
    and [consume] depend on the swept table only through the record under
    it. *)
Theorem storage_key_is_prefixed_identifier self identifier :
  generateKey self identifier = "rate_limit:" +:+ identifier
  /\ (forall other, generateKey other identifier = generateKey self identifier)
  /\ (forall identifier',
        generateKey self identifier' = generateKey self identifier ->
        identifier' = identifier)
  /\ forall env (db : Table),
       let after_sweep :=
         swept (sweepDown (outage env)) (sweepAt (clock env)) db in
       (forall k, k <> "rate_limit:" +:+ identifier ->
          (check self env identifier db).2 !! k = after_sweep !! k
          /\ (consume self env identifier db).2 !! k = after_sweep !! k
          /\ (reset_ self env identifier db).2 !! k = db !! k)
       /\ (writeDown (outage env) = None ->
           (reset_ self env identifier db).2 !! ("rate_limit:" +:+ identifier) = None)
       /\ (forall db2 : Table,
             swept (sweepDown (outage env)) (sweepAt (clock env)) db2
               !! ("rate_limit:" +:+ identifier)
             = after_sweep !! ("rate_limit:" +:+ identifier) ->
             (check self env identifier db2).1 = (check self env identifier db).1
             /\ (consume self env identifier db2).1
                = (consume self env identifier db).1).
Proof.
  split; [done|]. split; [done|].
  split; [intros identifier' Hsame; by apply (generateKey_inj self)|].
  intros env db after_sweep.
  change ("rate_limit:" +:+ identifier) with (generateKey self identifier).
  split; [|split].
  - intros k Hne. split; [|split].
    + by rewrite check_table.
    + by apply consume_frame.
    + run_call. destruct (writeDown (outage env)); simpl; [done|].
      by rewrite lookup_delete_ne.
  - intros Hw. run_call. rewrite Hw. simpl. apply lookup_delete_eq.
  - intros db2 Hsame. split.
    + by apply check_reads_key.
    + by apply consume_reads_key.
Qed.

(** C4 as stated fails: the limiters the factory registers as "auth" and
    "strict" do not put their name in the key, they derive the same key from
    the identifier both are called with in the handlers, and a [consume]
    through one is counted against the other (the second call below sees
    [count = 2] and the window of the "auth" limiter). *)
Lemma storage_key_lacks_namespace :
  let p := factory_calls [GetAuth; GetStrict] boot in
  let auth := {| maxRequests := 20; windowMs := 900000 |} in
  let strict := {| maxRequests := 10; windowMs := 60000 |} in
  let identifier := "forgot-password:10.0.0.1"%string in
  let env := {| clock := instant 0; outage := all_up |} in
  deref p (instances p !! "auth") = Some auth
  /\ deref p (instances p !! "strict") = Some strict
  /\ generateKey auth identifier <> "rate_limit:auth:forgot-password:10.0.0.1"%string
  /\ generateKey strict identifier <> "rate_limit:strict:forgot-password:10.0.0.1"%string
  /\ generateKey auth identifier = generateKey strict identifier
  /\ (consume strict env identifier (consume auth env identifier ∅).2).1
     = Resolved {| limit := 10; remaining := 8; reset := 900 |}.
Proof.
  repeat split; try reflexivity; by vm_compute.
Qed.

(** C5, as the code has it.  [check] does change the stored state: it runs
    the sweep of [cleanupExpired], which deletes the rows that have expired
    by its clock read, the row under its own key among them; it does
    nothing else, so it never modifies and never creates a record.  Take any
    table, any [check] calls (for any identifiers, with any store failures)
    and any sequence of [consume] calls such that each [check] comes no
    later than each [consume] and each [consume] either has its own sweep up
    (reading the clock no earlier than the checks' sweeps) or reads one
    clock value for the two [calculateResetTime()] of its upsert.  Then the
    [consume] sequence has the same outcomes, successes with their infos and
    failures with their errors, whether or not the [check] calls are made
    before it. *)
Theorem check_is_unobservable self checks consumes (db : Table) :
  Forall (fun chk =>
            Forall (fun call => settled_after chk.1 call.1) consumes) checks ->
  (consume_all self consumes (check_all self checks db).2).1
  = (consume_all self consumes db).1
  /\ forall env identifier,
       let db' := (check self env identifier db).2 in
       db' = swept (sweepDown (outage env)) (sweepAt (clock env)) db
       /\ (db' !! generateKey self identifier = db !! generateKey self identifier
           \/ (db' !! generateKey self identifier = None
               /\ exists r, db !! generateKey self identifier = Some r
                            /\ expiresAt r < sweepAt (clock env))).
Proof.
  intros Hsettled. split.
  - destruct checks as [|chk checks]; [done|].
    apply consume_all_agree_marks.
    + apply check_all_agree.
      eapply Forall_impl; [exact Hsettled|]. simpl. intros chk' Hchk'.
      by apply settled_after_marks.
    + apply Forall_cons in Hsettled as [Hfirst _].
      eapply Forall_impl; [exact Hfirst|]. simpl.
      intros call [_ [Hone | [Hup _]]]; auto.
  - intros env identifier db'. split; [apply check_table|].
    subst db'. rewrite check_table. apply swept_lookup_cases.
Qed.

Lemma check_is_unobservable_witness :
  let self := {| maxRequests := 2; windowMs := 1000 |} in
  let call t := {| clock := instant t; outage := all_up |} in
  let ticking :=
    {| clock := {| sweepAt := 130; nowAt := 130; resetAt := 130; createAt := 131 |};
       outage := all_up |} in
  let db : Table :=
    {[ "rate_limit:a"%string := {| count := 2; expiresAt := 50 |} ]} in
  let checks := [(call 100, "a"%string); (call 110, "b"%string)] in
  let consumes := [(call 120, "a"%string); (ticking, "a"%string);
                   (call 140, "a"%string)] in
  (consume_all self consumes (check_all self checks db).2).1
  = (consume_all self consumes db).1
  /\ forall env identifier,
       let db' := (check self env identifier db).2 in
       db' = swept (sweepDown (outage env)) (sweepAt (clock env)) db
       /\ (db' !! generateKey self identifier = db !! generateKey self identifier
           \/ (db' !! generateKey self identifier = None
               /\ exists r, db !! generateKey self identifier = Some r
                            /\ expiresAt r < sweepAt (clock env))).
Proof.
  intros self call ticking db checks consumes.
  apply (check_is_unobservable self checks consumes db).
  repeat constructor; simpl; first [lia | by left | (right; split; [done | lia])].
Defined.

(** C5 as stated fails.  The limiter allows one request per 100 ms and the
    key holds a record that expired at 5.  The sweep of the first [consume]
    fails (and is swallowed) and its two [calculateResetTime()] read the
    clock one millisecond apart; the second [consume] comes at 111.  Alone,
    both succeed: the first renews the expired row to end at 110, which the
    second finds expired.  After a [check] at 7, whose sweep deletes the
    row under its own key, the first creates a row ending at 111, and the
    second is rejected. *)
Lemma check_sweep_changes_a_later_consume :
  let self := {| maxRequests := 1; windowMs := 100 |} in
  let db : Table :=
    {[ "rate_limit:a"%string := {| count := 1; expiresAt := 5 |} ]} in
  let chk := {| clock := instant 7; outage := all_up |} in
  let first :=
    {| clock := {| sweepAt := 10; nowAt := 10; resetAt := 10; createAt := 11 |};
       outage := {| sweepDown := Some "connection lost"%string;
                    findDown := None; writeDown := None |} |} in
  let second := {| clock := instant 111; outage := all_up |} in
  let consumes := [(first, "a"%string); (second, "a"%string)] in
  (consume_all self consumes db).1
  = [ Resolved {| limit := 1; remaining := 0; reset := 1 |};
      Resolved {| limit := 1; remaining := 0; reset := 1 |} ]
  /\ (consume_all self consumes (check_all self [(chk, "a"%string)] db).2).1
     = [ Resolved {| limit := 1; remaining := 0; reset := 1 |};
         Rejected (ThrowRateLimit (new_RateLimitError 0)) ]
  /\ db !! generateKey self "a" = Some {| count := 1; expiresAt := 5 |}
  /\ (check self chk "a" db).2 !! generateKey self "a" = None.
Proof. repeat split; reflexivity. Qed.

(** C6, as the code has it.  The table is shared by every limiter object
    and the key does not name the limiter, so the count of a record is
    bounded by the largest limit among the limiters that use the table:
    when every limiter of [fleet] has [1 <= maxRequests <= M], every record
    of every table these limiters can bring about from the empty one (by
    [check], [consume] and [reset] calls with any clock reads and any store
    failures) has [count <= M]; for a single limiter, or limiters with one
    limit, [M] is [maxRequests].  And on every table, a [consume] that finds
    a live record with [count >= maxRequests] of the limiter called is
    rejected with a [RateLimitError] and writes nothing: the table it leaves
    is the swept one, with the record as it was. *)
Theorem count_never_exceeds_largest_limit fleet M (db : Table) :
  Forall (fun limiter => 1 <= maxRequests limiter <= M) fleet ->
  reachable_shared fleet db ->
  (forall k r, db !! k = Some r -> count r <= M)
  /\ forall self env identifier r,
       db !! generateKey self identifier = Some r ->
       sweepAt (clock env) <= expiresAt r ->
       nowAt (clock env) <= expiresAt r ->
       maxRequests self <= count r ->
       findDown (outage env) = None ->
       let after_sweep :=
         swept (sweepDown (outage env)) (sweepAt (clock env)) db in
       (exists e,
          consume self env identifier db = (Rejected (ThrowRateLimit e), after_sweep))
       /\ after_sweep !! generateKey self identifier = Some r.
Proof.
  intros Hfleet Hreach. split; [by apply (counts_below_reachable_shared fleet)|].
  intros self env identifier r Hk Hs Hn Hfull Hf after_sweep.
  assert (Hk' : after_sweep !! generateKey self identifier = Some r)
    by (by apply swept_lookup_live).
  split; [|done]. eexists.
  by apply (consume_reject self env identifier db r).
Qed.

Lemma count_never_exceeds_largest_limit_witness :
  let self := {| maxRequests := 2; windowMs := 1000 |} in
  let call t := {| clock := instant t; outage := all_up |} in
  let db := (consume self (call 10) "a" (consume self (call 0) "a" ∅).2).2 in
  (forall k r, db !! k = Some r -> count r <= 2)
  /\ forall self env identifier r,
       db !! generateKey self identifier = Some r ->
       sweepAt (clock env) <= expiresAt r ->
       nowAt (clock env) <= expiresAt r ->
       maxRequests self <= count r ->
       findDown (outage env) = None ->
       let after_sweep :=
         swept (sweepDown (outage env)) (sweepAt (clock env)) db in
       (exists e,
          consume self env identifier db = (Rejected (ThrowRateLimit e), after_sweep))
       /\ after_sweep !! generateKey self identifier = Some r.
Proof.
  intros self call db.
  apply (count_never_exceeds_largest_limit [self] 2 db).
  - repeat constructor; simpl; lia.
  - apply shared_consume; [by left|].
    apply shared_consume; [by left|]. apply shared_empty.
Defined.

(** C6 as stated fails.  The "auth" limiter (20 requests) and the "strict"
    limiter (10 requests) of the factory are both called with the
    identifier "forgot-password:" + address and address the same record.
    Eleven [consume] calls through the "auth" limiter inside one window
    leave a record with [count = 11] that has not expired: a state reachable
    by [consume] calls in which the record the "strict" limiter addresses
    exceeds its [maxRequests]. *)
Lemma shared_record_exceeds_smaller_limit :
  let auth := {| maxRequests := 20; windowMs := 900000 |} in
  let strict := {| maxRequests := 10; windowMs := 60000 |} in
  let identifier := "forgot-password:10.0.0.1"%string in
  let call (t : Z) := ({| clock := instant t; outage := all_up |}, identifier) in
  let db := (consume_all auth (map call (seqZ 0 11)) ∅).2 in
  let now := 11 in
  reachable_shared [auth; strict] db
  /\ db !! generateKey strict identifier
     = Some {| count := 11; expiresAt := 900000 |}
  /\ now <= 900000
  /\ ~ (11 <= maxRequests strict).
Proof.
  intros auth strict identifier call db now. split; [|split; [|split]].
  - apply consume_all_reachable_shared; [by left | apply shared_empty].
  - reflexivity.
  - subst now. lia.
  - simpl. lia.
Qed.

(** C7.  A rejection of [findUnique] makes [consume] and [check] fail with
    what the store rejected with.  A rejection of the write of [consume]
    ([upsert] or the incrementing [update]) makes [consume] fail with it,
    unless the quota rejection, which comes before any write, was raised
    instead.  A rejection of the sweep is caught in [cleanupExpired], which
    resolves and leaves the table as it was; so with read and write up,
    whatever the sweep does, [check] succeeds and [consume] succeeds or
    fails with a [RateLimitError], never with a store failure. *)
Theorem store_failures_propagate_sweep_failures_do_not self env identifier db :
  (forall why,
     findDown (outage env) = Some why ->
     (consume self env identifier db).1 = Rejected (ThrowStorage why)
     /\ (check self env identifier db).1 = Rejected (ThrowStorage why))
  /\ (forall why,
        findDown (outage env) = None ->
        writeDown (outage env) = Some why ->
        (consume self env identifier db).1 = Rejected (ThrowStorage why)
        \/ exists r,
             swept (sweepDown (outage env)) (sweepAt (clock env)) db
               !! generateKey self identifier = Some r
             /\ nowAt (clock env) <= expiresAt r
             /\ maxRequests self <= count r
             /\ (consume self env identifier db).1
                = Rejected (ThrowRateLimit (new_RateLimitError
                    (Math_ceil_div (expiresAt r - nowAt (clock env)) 1000))))
  /\ (forall why t,
        cleanupExpired self (Some why) t db = (Resolved tt, db))
  /\ (core_up (outage env) ->
      (exists info, (check self env identifier db).1 = Resolved info)
      /\ ((exists info, (consume self env identifier db).1 = Resolved info)
          \/ exists e,
               (consume self env identifier db).1 = Rejected (ThrowRateLimit e))).
Proof.
  split; [|split; [|split]].
  - intros why Hf. by rewrite (consume_find_down _ _ _ _ _ Hf),
                            (check_find_down _ _ _ _ _ Hf).
  - intros why Hf Hw.
    destruct (consume_cases self env identifier db)
      as [why' Hf' | why' Hf' Hstale Hw' | [_ Hup] Hstale | r Hf' Hk Hlive Hfull
          | why' r Hf' Hk Hlive Hroom Hw' | r [_ Hup] Hk Hlive Hroom]; simpl;
      try congruence.
    + left. congruence.
    + right. by exists r.
    + left. congruence.
  - done.
  - intros [Hf Hw]. split; [by apply check_resolves|].
    destruct (consume_cases self env identifier db)
      as [why' Hf' | why' Hf' Hstale Hw' | Hup Hstale | r Hf' Hk Hlive Hfull
          | why' r Hf' Hk Hlive Hroom Hw' | r Hup Hk Hlive Hroom]; simpl;
      try congruence; eauto.
Qed.

(** C8.  With the store's read up, [check] on a key whose record is absent,
    or present with [expiresAt < now], returns
    [{limit: maxRequests, remaining: maxRequests,
      reset: ceil((t + windowMs) / 1000)}], [t] being the clock read of its
    [calculateResetTime()]; it creates no row (the key's row is what it was,
    or is gone); and a following [consume] of the key, made no earlier than
    the check and with the store's read and write up, opens a new window and
    returns [remaining = maxRequests - 1] when [maxRequests >= 1]. *)
Theorem check_absent_or_expired self env identifier db :
  findDown (outage env) = None ->
  (db !! generateKey self identifier = None
   \/ exists r, db !! generateKey self identifier = Some r
                /\ expiresAt r < nowAt (clock env)) ->
  exists db',
    check self env identifier db
    = (Resolved {| limit := maxRequests self;
                   remaining := maxRequests self;
                   reset := Math_ceil_div
                              (resetAt (clock env) + windowMs self) 1000 |},
       db')
    /\ (db' !! generateKey self identifier = db !! generateKey self identifier
        \/ db' !! generateKey self identifier = None)
    /\ forall env2,
         1 <= maxRequests self ->
         core_up (outage env2) ->
         nowAt (clock env) <= nowAt (clock env2) ->
         exists t db'',
           (t = resetAt (clock env2) \/ t = createAt (clock env2))
           /\ consume self env2 identifier db'
              = (Resolved {| limit := maxRequests self;
                             remaining := maxRequests self - 1;
                             reset := Math_ceil_div (t + windowMs self) 1000 |},
                 db'')
           /\ db'' !! generateKey self identifier
              = Some {| count := 1; expiresAt := t + windowMs self |}.
Proof.
  intros Hf Hcase.
  assert (Hstale : forall r, db !! generateKey self identifier = Some r ->
                             expiresAt r < nowAt (clock env)).
  { intros r Hr. destruct Hcase as [Hnone | (r' & Hr' & Hexp)]; congruence. }
  eexists. split; [|split].
  - apply check_hypothetical; [done|].
    intros r Hr. apply Hstale. by apply swept_lookup_Some in Hr.
  - destruct (swept_lookup_cases (sweepDown (outage env)) (sweepAt (clock env))
                db (generateKey self identifier)) as [Heq | [Hnone _]]; auto.
  - intros env2 HN Hup Hlater.
    destruct (consume_new_window self env2 identifier
                (swept (sweepDown (outage env)) (sweepAt (clock env)) db) Hup)
      as (t & db'' & Ht & _ & Hrun & Hrow & _).
    { intros r Hr. apply swept_lookup_Some in Hr. apply Hstale in Hr. lia. }
    exists t, db''. split; [done|]. split; [|done].
    by rewrite Hrun, info_of_first.
Qed.

Lemma check_absent_or_expired_witness :
  exists db',
    check {| maxRequests := 3; windowMs := 1000 |}
      {| clock := instant 5000; outage := all_up |} "b" ∅
    = (Resolved {| limit := 3; remaining := 3;
                   reset := Math_ceil_div (5000 + 1000) 1000 |}, db')
    /\ (db' !! generateKey {| maxRequests := 3; windowMs := 1000 |} "b"
        = (∅ : Table) !! generateKey {| maxRequests := 3; windowMs := 1000 |} "b"
        \/ db' !! generateKey {| maxRequests := 3; windowMs := 1000 |} "b" = None)
    /\ forall env2,
         1 <= 3 ->
         core_up (outage env2) ->
         5000 <= nowAt (clock env2) ->
         exists t db'',
           (t = resetAt (clock env2) \/ t = createAt (clock env2))
           /\ consume {| maxRequests := 3; windowMs := 1000 |} env2 "b" db'
              = (Resolved {| limit := 3; remaining := 3 - 1;
                             reset := Math_ceil_div (t + 1000) 1000 |}, db'')
           /\ db'' !! generateKey {| maxRequests := 3; windowMs := 1000 |} "b"
              = Some {| count := 1; expiresAt := t + 1000 |}.
Proof.
  apply (check_absent_or_expired
           {| maxRequests := 3; windowMs := 1000 |}
           {| clock := instant 5000; outage := all_up |} "b" ∅).
  - reflexivity.
  - left. reflexivity.
Defined.

(** C9.  With the store's delete up, [reset] succeeds whether or not the key
    has a record, leaves the table without a record for the key and with
    every other record as it was; a second [reset] succeeds and leaves the
    same table; and a [consume] of the key that follows it, with the store's
    read and write up and [maxRequests >= 1], does what it does on any table
    without a record for the key: it succeeds with
    [remaining = maxRequests - 1] in a window opened by this call. *)
Theorem reset_forgets_key self env identifier db :
  writeDown (outage env) = None ->
  let db' := delete (generateKey self identifier) db in
  reset_ self env identifier db = (Resolved tt, db')
  /\ db' !! generateKey self identifier = None
  /\ (forall k, k <> generateKey self identifier -> db' !! k = db !! k)
  /\ (forall env1, writeDown (outage env1) = None ->
        reset_ self env1 identifier db' = (Resolved tt, db'))
  /\ (forall env2,
        1 <= maxRequests self ->
        core_up (outage env2) ->
        (consume self env2 identifier db').1
        = Resolved {| limit := maxRequests self;
                      remaining := maxRequests self - 1;
                      reset := Math_ceil_div
                                 (createAt (clock env2) + windowMs self) 1000 |}
        /\ forall fresh : Table,
             fresh !! generateKey self identifier = None ->
             (consume self env2 identifier fresh).1
             = (consume self env2 identifier db').1).
Proof.
  intros Hw db'.
  assert (Hgone : db' !! generateKey self identifier = None)
    by apply lookup_delete_eq.
  assert (Hfresh : forall env2 (fresh : Table),
            1 <= maxRequests self -> core_up (outage env2) ->
            fresh !! generateKey self identifier = None ->
            (consume self env2 identifier fresh).1
            = Resolved {| limit := maxRequests self;
                          remaining := maxRequests self - 1;
                          reset := Math_ceil_div
                                     (createAt (clock env2) + windowMs self) 1000 |}).
  { intros env2 fresh HN Hup Hnone.
    rewrite consume_create by (auto using swept_lookup_None). simpl.
    by rewrite info_of_first. }
  split; [by run_call; rewrite Hw|].
  split; [done|].
  split; [intros k Hne; by apply lookup_delete_ne|].
  split.
  { intros env1 Hw1. run_call. rewrite Hw1. simpl. f_equal.
    by apply delete_id. }
  intros env2 HN Hup. split; [by apply Hfresh|].
  intros fresh Hnone. by rewrite !Hfresh.
Qed.

Lemma reset_forgets_key_witness :
  let self := {| maxRequests := 3; windowMs := 1000 |} in
  let env := {| clock := instant 10; outage := all_up |} in
  let db : Table :=
    {[ "rate_limit:a"%string := {| count := 3; expiresAt := 1000 |} ]} in
  let db' := delete (generateKey self "a") db in
  reset_ self env "a" db = (Resolved tt, db')
  /\ db' !! generateKey self "a" = None
  /\ (forall k, k <> generateKey self "a" -> db' !! k = db !! k)
  /\ (forall env1, writeDown (outage env1) = None ->
        reset_ self env1 "a" db' = (Resolved tt, db'))
  /\ (forall env2,
        1 <= maxRequests self ->
        core_up (outage env2) ->
        (consume self env2 "a" db').1
        = Resolved {| limit := maxRequests self;
                      remaining := maxRequests self - 1;
                      reset := Math_ceil_div
                                 (createAt (clock env2) + windowMs self) 1000 |}
        /\ forall fresh : Table,
             fresh !! generateKey self "a" = None ->
             (consume self env2 "a" fresh).1 = (consume self env2 "a" db').1).
Proof.
  intros self env db.
  apply (reset_forgets_key self env "a" db).
  reflexivity.
Defined.

(** C10.  Once the factory holds a [RateLimiter] object under a name,
    [createCustomLimiter(name, config)] returns the reference of that object
    and leaves the process as it was, allocating nothing from [config]; and
    this stays so after any further calls on the factory: the call returns
    the same reference, and the object behind it still has the
    [maxRequests] and [windowMs] it was registered with. *)
Theorem createCustomLimiter_discards_config p name ref lim config :
  instances p !! name = Some ref ->
  objects p !! ref = Some lim ->
  createCustomLimiter name config p = (Some ref, p)
  /\ forall later config',
       let p' := factory_calls later p in
       createCustomLimiter name config' p' = (Some ref, p')
       /\ deref p' (Some ref) = Some lim.
Proof.
  intros Hreg Hobj. split; [by apply createCustomLimiter_registered|].
  intros later config' p'.
  destruct (factory_calls_preserve later p name ref lim Hreg Hobj) as [Hreg' Hobj'].
  split; [by apply createCustomLimiter_registered|].
  done.
Qed.

Lemma createCustomLimiter_discards_config_witness :
  let p := (createCustomLimiter "uploads"
              {| config_maxRequests := 5; config_windowMs := 1000 |} boot).2 in
  createCustomLimiter "uploads"
    {| config_maxRequests := 500; config_windowMs := 1 |} p
  = (Some 0%nat, p)
  /\ forall later config',
       let p' := factory_calls later p in
       createCustomLimiter "uploads" config' p' = (Some 0%nat, p')
       /\ deref p' (Some 0%nat) = Some {| maxRequests := 5; windowMs := 1000 |}.
Proof.
  intros p.
  apply (createCustomLimiter_discards_config p "uploads" 0%nat
           {| maxRequests := 5; windowMs := 1000 |}
           {| config_maxRequests := 500; config_windowMs := 1 |});
    reflexivity.
Defined.

(** ** Further properties of the limiter *)

(** *** The live branch of [check] and of [consume] *)

(** X1.  [check] on a record that is present and live (the clock not running
    backwards between the sweep and [now], the store's read up) reports the
    window as it stands: [remaining = max(0, maxRequests - count)] and
    [reset = ceil(expiresAt / 1000)], and leaves the record as it was. *)
Theorem check_live_reports_window self env identifier db r :
  findDown (outage env) = None ->
  db !! generateKey self identifier = Some r ->
  sweepAt (clock env) <= nowAt (clock env) ->
  nowAt (clock env) <= expiresAt r ->
  exists db',
    check self env identifier db
    = (Resolved {| limit := maxRequests self;
                   remaining := Z.max 0 (maxRequests self - count r);
                   reset := Math_ceil_div (expiresAt r) 1000 |}, db')
    /\ db' !! generateKey self identifier = Some r.
Proof.
  intros Hf Hk Hclock Hlive.
  assert (Hk' : swept (sweepDown (outage env)) (sweepAt (clock env)) db
                  !! generateKey self identifier = Some r)
    by (apply swept_lookup_live; [done|lia]).
  eexists. split; [|exact Hk'].
  by apply check_live.
Qed.

Lemma check_live_reports_window_witness :
  exists db',
    check {| maxRequests := 5; windowMs := 1000 |}
      {| clock := instant 250; outage := all_up |} "a"
      {[ "rate_limit:a"%string := {| count := 2; expiresAt := 1000 |} ]}
    = (Resolved {| limit := 5; remaining := Z.max 0 (5 - 2);
                   reset := Math_ceil_div 1000 1000 |}, db')
    /\ db' !! "rate_limit:a"%string = Some {| count := 2; expiresAt := 1000 |}.
Proof.
  apply (check_live_reports_window
           {| maxRequests := 5; windowMs := 1000 |}
           {| clock := instant 250; outage := all_up |} "a"
           {[ "rate_limit:a"%string := {| count := 2; expiresAt := 1000 |} ]}
           {| count := 2; expiresAt := 1000 |});
    simpl; first [reflexivity | lia].
Defined.

(** X2.  [consume] on a record that is present and live with
    [count < maxRequests] (clock not running backwards, read and write up)
    succeeds, adds exactly one to the count and does not move the end of the
    window: the stored [expiresAt] and the returned [reset] are those of the
    window that was open, and [remaining] is [maxRequests - count - 1]. *)
Theorem consume_live_increments self env identifier db r :
  core_up (outage env) ->
  db !! generateKey self identifier = Some r ->
  sweepAt (clock env) <= nowAt (clock env) ->
  nowAt (clock env) <= expiresAt r ->
  count r < maxRequests self ->
  exists db',
    consume self env identifier db
    = (Resolved {| limit := maxRequests self;
                   remaining := maxRequests self - count r - 1;
                   reset := Math_ceil_div (expiresAt r) 1000 |}, db')
    /\ db' !! generateKey self identifier
       = Some {| count := count r + 1; expiresAt := expiresAt r |}.
Proof.
  intros Hup Hk Hclock Hlive Hroom.
  assert (Hk' : swept (sweepDown (outage env)) (sweepAt (clock env)) db
                  !! generateKey self identifier = Some r)
    by (apply swept_lookup_live; [done|lia]).
  eexists. split.
  - rewrite (consume_increment self env identifier db r) by done.
    unfold info_of, Math_max. simpl. do 3 f_equal. lia.
  - by rewrite lookup_insert_eq.
Qed.

Lemma consume_live_increments_witness :
  exists db',
    consume {| maxRequests := 5; windowMs := 1000 |}
      {| clock := instant 250; outage := all_up |} "a"
      {[ "rate_limit:a"%string := {| count := 2; expiresAt := 1000 |} ]}
    = (Resolved {| limit := 5; remaining := 5 - 2 - 1;
                   reset := Math_ceil_div 1000 1000 |}, db')
    /\ db' !! "rate_limit:a"%string
       = Some {| count := 2 + 1; expiresAt := 1000 |}.
Proof.
  apply (consume_live_increments
           {| maxRequests := 5; windowMs := 1000 |}
           {| clock := instant 250; outage := all_up |} "a"
           {[ "rate_limit:a"%string := {| count := 2; expiresAt := 1000 |} ]}
           {| count := 2; expiresAt := 1000 |});
    first [by split | reflexivity | simpl; lia].
Defined.

(** *** What [check] says about the [consume] to come *)

(** X3.  With [maxRequests >= 1] and the store's read up, [check] succeeds,
    and its answer holds for the [consume] that follows it on the table it
    left.  When it reports [remaining > 0], a [consume] of the same
    identifier made no earlier (read and write up) succeeds, with one less
    remaining in the same window or with [maxRequests - 1] in a new one.
    When it reports [remaining = 0], a [consume] made while the stored
    window is still open (read up) is rejected with a [RateLimitError]. *)
Theorem check_agrees_with_consume self env identifier db :
  1 <= maxRequests self ->
  findDown (outage env) = None ->
  exists info db',
    check self env identifier db = (Resolved info, db')
    /\ (0 < remaining info ->
        forall env2,
          core_up (outage env2) ->
          nowAt (clock env) <= nowAt (clock env2) ->
          exists info2,
            (consume self env2 identifier db').1 = Resolved info2
            /\ (remaining info2 = remaining info - 1
                \/ remaining info2 = maxRequests self - 1))
    /\ (remaining info = 0 ->
        forall env2,
          findDown (outage env2) = None ->
          (forall r, db' !! generateKey self identifier = Some r ->
                     sweepAt (clock env2) <= expiresAt r
                     /\ nowAt (clock env2) <= expiresAt r) ->
          exists e,
            (consume self env2 identifier db').1 = Rejected (ThrowRateLimit e)).
Proof.
  intros HN Hf.
  set (db' := swept (sweepDown (outage env)) (sweepAt (clock env)) db).
  assert (Hnew : forall env2,
            core_up (outage env2) ->
            (forall r, db' !! generateKey self identifier = Some r ->
                       expiresAt r < nowAt (clock env2)) ->
            exists info2,
              (consume self env2 identifier db').1 = Resolved info2
              /\ remaining info2 = maxRequests self - 1).
  { intros env2 Hup Hstale.
    destruct (consume_new_window self env2 identifier db' Hup Hstale)
      as (t & db'' & _ & _ & Hrun & _).
    rewrite Hrun, info_of_first by done. by eexists. }
  destruct (db' !! generateKey self identifier) as [r|] eqn:Hk.
  - destruct (decide (expiresAt r < nowAt (clock env))) as [Hexp|Hlive].
    + eexists _, db'. split; [|split].
      * apply check_hypothetical; [done|]. fold db'. intros r' Hr'.
        by assert (r' = r) as -> by congruence.
      * intros _ env2 Hup Hlater.
        destruct (Hnew env2 Hup) as (info2 & Hrun & Hrem); [|by eauto].
        intros r' [= <-]. lia.
      * simpl. lia.
    + eexists _, db'. split; [|split].
      * apply (check_live self env identifier db r); [done|done|lia].
      * unfold Math_max. simpl. intros Hpos env2 Hup Hlater.
        destruct (swept (sweepDown (outage env2)) (sweepAt (clock env2)) db'
                    !! generateKey self identifier) as [r2|] eqn:Hk2.
        -- pose proof (swept_lookup_Some _ _ _ _ _ Hk2) as Hr2.
           assert (r2 = r) as -> by congruence.
           destruct (decide (expiresAt r < nowAt (clock env2))) as [Hexp2|Hlive2].
           ++ rewrite (consume_renew self env2 identifier db' r) by done.
              simpl. rewrite info_of_first by done. eexists. split; [done|].
              by right.
           ++ rewrite (consume_increment self env2 identifier db' r)
                by (auto; lia).
              simpl. eexists. split; [done|]. left.
              unfold info_of, Math_max in *. simpl. lia.
        -- rewrite (consume_create self env2 identifier db') by done.
           simpl. rewrite info_of_first by done. eexists. split; [done|].
           by right.
      * unfold Math_max. simpl. intros Hzero env2 Hf2 Hopen.
        destruct (Hopen r Hk) as [Hs Hn].
        rewrite (consume_reject self env2 identifier db' r);
          [by eexists | done | by apply swept_lookup_live | done | lia].
  - eexists _, db'. split; [|split].
    + apply check_hypothetical; [done|]. fold db'. intros r' Hr'. congruence.
    + intros _ env2 Hup Hlater.
      destruct (Hnew env2 Hup) as (info2 & Hrun & Hrem); [done|by eauto].
    + simpl. lia.
Qed.

Lemma check_agrees_with_consume_witness :
  let self := {| maxRequests := 3; windowMs := 1000 |} in
  let env := {| clock := instant 10; outage := all_up |} in
  exists info db',
    check self env "a" ∅ = (Resolved info, db')
    /\ (0 < remaining info ->
        forall env2,
          core_up (outage env2) ->
          nowAt (clock env) <= nowAt (clock env2) ->
          exists info2,
            (consume self env2 "a" db').1 = Resolved info2
            /\ (remaining info2 = remaining info - 1
                \/ remaining info2 = maxRequests self - 1))
    /\ (remaining info = 0 ->
        forall env2,
          findDown (outage env2) = None ->
          (forall r, db' !! generateKey self "a" = Some r ->
                     sweepAt (clock env2) <= expiresAt r
                     /\ nowAt (clock env2) <= expiresAt r) ->
          exists e,
            (consume self env2 "a" db').1 = Rejected (ThrowRateLimit e)).
Proof.
  intros self env.
  apply (check_agrees_with_consume self env "a" ∅).
  - simpl. lia.
  - reflexivity.
Defined.

(** *** Counts start at one, infos stay within the limit *)

Lemma counts_from_one_consume self env identifier (db : Table) :
  (forall k r, db !! k = Some r -> 1 <= count r) ->
  forall k r, (consume self env identifier db).2 !! k = Some r -> 1 <= count r.
Proof.
  intros Hdb k r' Hk.
  assert (Hsw : forall k r,
            swept (sweepDown (outage env)) (sweepAt (clock env)) db !! k = Some r ->
            1 <= count r).
  { intros k0 r0 Hr0. apply (Hdb k0). by apply swept_lookup_Some in Hr0. }
  destruct (decide (k = generateKey self identifier)) as [->|Hne].
  - apply consume_key_row in Hk as [Hsame | [Hone | (r & Hr & Hroom & Hinc)]].
    + by apply (Hsw _ _ Hsame).
    + lia.
    + specialize (Hsw _ _ Hr). lia.
  - rewrite consume_frame in Hk by done. by apply (Hsw _ _ Hk).
Qed.

Lemma counts_from_one_reachable self (db : Table) :
  reachable self db -> forall k r, db !! k = Some r -> 1 <= count r.
Proof.
  intros Hreach. induction Hreach as [|env identifier db _ IH
                                       |env identifier db _ IH
                                       |env identifier db _ IH].
  - intros k r Hk. by rewrite lookup_empty in Hk.
  - rewrite check_table. intros k r Hk. apply (IH k).
    by apply swept_lookup_Some in Hk.
  - by apply counts_from_one_consume.
  - intros k r. run_call. destruct (writeDown (outage env)); simpl.
    + apply IH.
    + intros Hk. apply lookup_delete_Some in Hk as [_ Hk]. by apply (IH k).
Qed.

(** X4.  In every table one limiter with [maxRequests >= 1] can bring about
    from the empty one, every stored record has a count between 1 and
    [maxRequests]; and on such a table every info a successful [check]
    returns has [limit = maxRequests] and [0 <= remaining <= maxRequests],
    and every info a successful [consume] returns has [limit = maxRequests]
    and [0 <= remaining <= maxRequests - 1].  So [remaining] is never
    negative and never above the limit, and a request that was let through
    never sees the full quota. *)
Theorem infos_within_limit self (db : Table) :
  1 <= maxRequests self ->
  reachable self db ->
  (forall k r, db !! k = Some r -> 1 <= count r <= maxRequests self)
  /\ forall env identifier info,
       ((check self env identifier db).1 = Resolved info ->
        limit info = maxRequests self
        /\ 0 <= remaining info <= maxRequests self)
       /\ ((consume self env identifier db).1 = Resolved info ->
           limit info = maxRequests self
           /\ 0 <= remaining info <= maxRequests self - 1).
Proof.
  intros HN Hreach.
  pose proof (counts_from_one_reachable self db Hreach) as Hlow.
  pose proof (counts_bounded_reachable self db HN Hreach) as Hhigh.
  split; [intros k r Hk; split; [by apply (Hlow k)|by apply (Hhigh k)]|].
  intros env identifier info.
  assert (Hsw : forall r,
            swept (sweepDown (outage env)) (sweepAt (clock env)) db
              !! generateKey self identifier = Some r ->
            1 <= count r).
  { intros r Hr. apply (Hlow (generateKey self identifier)).
    by apply swept_lookup_Some in Hr. }
  split.
  - destruct (findDown (outage env)) as [why|] eqn:Hf.
    { by rewrite (check_find_down _ _ _ _ _ Hf). }
    destruct (swept (sweepDown (outage env)) (sweepAt (clock env)) db
                !! generateKey self identifier) as [r|] eqn:Hk.
    + destruct (decide (expiresAt r < nowAt (clock env))) as [Hexp|Hlive].
      * rewrite check_hypothetical; [|done|intros r' Hr'; congruence].
        simpl. intros [= <-]. simpl. lia.
      * rewrite (check_live self env identifier db r) by (auto; lia).
        simpl. intros [= <-]. unfold Math_max. simpl.
        specialize (Hsw r eq_refl). lia.
    + rewrite check_hypothetical; [|done|intros r' Hr'; congruence].
      simpl. intros [= <-]. simpl. lia.
  - destruct (consume_cases self env identifier db)
      as [why Hf | why Hf Hstale Hw | Hup Hstale | r Hf Hk Hlive Hfull
          | why r Hf Hk Hlive Hroom Hw | r Hup Hk Hlive Hroom]; simpl;
      try done.
    + intros [= <-].
      destruct (swept _ _ db !! generateKey self identifier);
        unfold info_of, Math_max; simpl; lia.
    + intros [= <-]. specialize (Hsw r Hk).
      unfold info_of, Math_max; simpl; lia.
Qed.

Lemma infos_within_limit_witness :
  let self := {| maxRequests := 2; windowMs := 1000 |} in
  let call t := {| clock := instant t; outage := all_up |} in
  let db := (consume self (call 10) "a" (consume self (call 0) "a" ∅).2).2 in
  (forall k r, db !! k = Some r -> 1 <= count r <= maxRequests self)
  /\ forall env identifier info,
       ((check self env identifier db).1 = Resolved info ->
        limit info = maxRequests self
        /\ 0 <= remaining info <= maxRequests self)
       /\ ((consume self env identifier db).1 = Resolved info ->
           limit info = maxRequests self
           /\ 0 <= remaining info <= maxRequests self - 1).
Proof.
  intros self call db.
  apply (infos_within_limit self db).
  - simpl. lia.
  - apply reachable_consume, reachable_consume, reachable_empty.
Defined.

(** *** Identifiers do not interfere *)

(** The outcome of [consume] is the same on two tables whose swept rows
    under the key are equal, or are both stale. *)
Lemma consume_outcome_by_key self env identifier (a b : Table) :
  one_reset_read (clock env) ->
  swept (sweepDown (outage env)) (sweepAt (clock env)) a
    !! generateKey self identifier
  = swept (sweepDown (outage env)) (sweepAt (clock env)) b
      !! generateKey self identifier
  \/ (stale (swept (sweepDown (outage env)) (sweepAt (clock env)) a
               !! generateKey self identifier) (nowAt (clock env))
      /\ stale (swept (sweepDown (outage env)) (sweepAt (clock env)) b
                  !! generateKey self identifier) (nowAt (clock env))) ->
  (consume self env identifier a).1 = (consume self env identifier b).1.
Proof.
  intros Hone [Heq | [Hsa Hsb]]; [by apply consume_reads_key|].
  destruct (findDown (outage env)) as [why|] eqn:Hf.
  { by rewrite !(consume_find_down _ _ _ _ _ Hf). }
  rewrite (consume_stale self env identifier a),
          (consume_stale self env identifier b) by done.
  destruct (writeDown (outage env)) as [why|]; [done|]. simpl.
  by rewrite (new_window_row_one_read self env
                (swept (sweepDown (outage env)) (sweepAt (clock env)) a
                   !! generateKey self identifier)
                (swept (sweepDown (outage env)) (sweepAt (clock env)) b
                   !! generateKey self identifier) Hone).
Qed.

Lemma check_outcome_by_key self env identifier (a b : Table) :
  swept (sweepDown (outage env)) (sweepAt (clock env)) a
    !! generateKey self identifier
  = swept (sweepDown (outage env)) (sweepAt (clock env)) b
      !! generateKey self identifier
  \/ (stale (swept (sweepDown (outage env)) (sweepAt (clock env)) a
               !! generateKey self identifier) (nowAt (clock env))
      /\ stale (swept (sweepDown (outage env)) (sweepAt (clock env)) b
                  !! generateKey self identifier) (nowAt (clock env))) ->
  (check self env identifier a).1 = (check self env identifier b).1.
Proof.
  intros [Heq | [Hsa Hsb]]; [by apply check_reads_key|].
  destruct (findDown (outage env)) as [why|] eqn:Hf.
  { by rewrite !(check_find_down _ _ _ _ _ Hf). }
  by rewrite !check_hypothetical.
Qed.

(** A row another call's sweep removed is stale for a later call. *)
Lemma swept_twice_by_key down1 t1 down2 t2 now (db : Table) k :
  t1 <= now ->
  swept down2 t2 (swept down1 t1 db) !! k = swept down2 t2 db !! k
  \/ (stale (swept down2 t2 (swept down1 t1 db) !! k) now
      /\ stale (swept down2 t2 db !! k) now).
Proof.
  intros Hearly.
  destruct (swept_lookup_cases down1 t1 db k) as [Heq | [Hnone (r & Hr & Hexp)]].
  - left. by apply swept_lookup_same.
  - right. split.
    + intros r' Hr'. apply swept_lookup_Some in Hr'. congruence.
    + intros r' Hr'. apply swept_lookup_Some in Hr'.
      assert (r' = r) as -> by congruence. lia.
Qed.

(** X5.  Calls for one identifier do not change what a call for another
    identifier gets.  After a [consume] or a [check] for [other] (whatever
    its outcome, with any store failures) made no later than the second
    call, or after a [reset] for [other], the outcome of [consume] and of
    [check] for [identifier] is the one they have without that first call;
    all six pairings of a first and a second call are covered.
    For [consume] the two [calculateResetTime()] reads of its upsert are
    taken to agree. *)
Theorem identifiers_do_not_interfere self env1 env2 other identifier (db : Table) :
  other <> identifier ->
  sweepAt (clock env1) <= nowAt (clock env2) ->
  one_reset_read (clock env2) ->
  (consume self env2 identifier (consume self env1 other db).2).1
  = (consume self env2 identifier db).1
  /\ (check self env2 identifier (consume self env1 other db).2).1
     = (check self env2 identifier db).1
  /\ (consume self env2 identifier (check self env1 other db).2).1
     = (consume self env2 identifier db).1
  /\ (check self env2 identifier (check self env1 other db).2).1
     = (check self env2 identifier db).1
  /\ (consume self env2 identifier (reset_ self env1 other db).2).1
     = (consume self env2 identifier db).1
  /\ (check self env2 identifier (reset_ self env1 other db).2).1
     = (check self env2 identifier db).1.
Proof.
  intros Hne Hearly Hone.
  assert (Hkey : generateKey self identifier <> generateKey self other).
  { intros Heq. apply generateKey_inj in Heq. congruence. }
  assert (Hconsumed :
    swept (sweepDown (outage env2)) (sweepAt (clock env2))
      (consume self env1 other db).2 !! generateKey self identifier
    = swept (sweepDown (outage env2)) (sweepAt (clock env2)) db
        !! generateKey self identifier
    \/ (stale (swept (sweepDown (outage env2)) (sweepAt (clock env2))
                 (consume self env1 other db).2 !! generateKey self identifier)
          (nowAt (clock env2))
        /\ stale (swept (sweepDown (outage env2)) (sweepAt (clock env2)) db
                    !! generateKey self identifier) (nowAt (clock env2)))).
  { destruct (swept_twice_by_key (sweepDown (outage env1)) (sweepAt (clock env1))
                (sweepDown (outage env2)) (sweepAt (clock env2))
                (nowAt (clock env2)) db (generateKey self identifier) Hearly)
      as [Heq | Hstale].
    - left. rewrite <- Heq. apply swept_lookup_same. by apply consume_frame.
    - right. destruct Hstale as [Hs1 Hs2]. split; [|done].
      intros r Hr. apply Hs1. rewrite <- Hr. symmetry.
      apply swept_lookup_same. by apply consume_frame. }
  assert (Hreset :
    swept (sweepDown (outage env2)) (sweepAt (clock env2))
      (reset_ self env1 other db).2 !! generateKey self identifier
    = swept (sweepDown (outage env2)) (sweepAt (clock env2)) db
        !! generateKey self identifier).
  { apply swept_lookup_same. run_call.
    destruct (writeDown (outage env1)); simpl; [done|].
    by apply lookup_delete_ne. }
  split; [by apply consume_outcome_by_key|].
  split; [by apply check_outcome_by_key|].
  split.
  { rewrite check_table. apply consume_outcome_by_key; [done|].
    by apply swept_twice_by_key. }
  split.
  { rewrite check_table. apply check_outcome_by_key.
    by apply swept_twice_by_key. }
  split; [by apply consume_reads_key | by apply check_reads_key].
Qed.

Lemma identifiers_do_not_interfere_witness :
  let self := {| maxRequests := 2; windowMs := 1000 |} in
  let call t := {| clock := instant t; outage := all_up |} in
  let db : Table :=
    {[ "rate_limit:b"%string := {| count := 2; expiresAt := 50 |} ]} in
  (consume self (call 20) "b" (consume self (call 10) "a" db).2).1
  = (consume self (call 20) "b" db).1
  /\ (check self (call 20) "b" (consume self (call 10) "a" db).2).1
     = (check self (call 20) "b" db).1
  /\ (consume self (call 20) "b" (check self (call 10) "a" db).2).1
     = (consume self (call 20) "b" db).1
  /\ (check self (call 20) "b" (check self (call 10) "a" db).2).1
     = (check self (call 20) "b" db).1
  /\ (consume self (call 20) "b" (reset_ self (call 10) "a" db).2).1
     = (consume self (call 20) "b" db).1
  /\ (check self (call 20) "b" (reset_ self (call 10) "a" db).2).1
     = (check self (call 20) "b" db).1.
Proof.
  intros self call db.
  apply (identifiers_do_not_interfere self (call 10) (call 20) "a" "b" db).
  - discriminate.
  - simpl. lia.
  - reflexivity.
Defined.

(** ** Further properties of the factory *)

Lemma factory_call_as_custom c p :
  factory_call c p
  = createCustomLimiter (registration c).1 (registration c).2 p.
Proof. by destruct c. Qed.

Lemma createCustomLimiter_well_formed name config p :
  well_formed p -> well_formed (createCustomLimiter name config p).2.
Proof.
  intros [Halloc Hinj].
  destruct (instances p !! name) as [ref|] eqn:Hreg.
  - by rewrite (createCustomLimiter_registered _ _ _ _ Hreg).
  - rewrite (createCustomLimiter_new _ _ _ Hreg). simpl. split.
    + intros name' ref' Hr'. simpl in *. rewrite length_app. simpl.
      destruct (decide (name = name')) as [->|Hne].
      * rewrite lookup_insert_eq in Hr'. injection Hr' as <-. lia.
      * rewrite lookup_insert_ne in Hr' by done. apply Halloc in Hr'. lia.
    + intros name1 name2 ref'. simpl.
      destruct (decide (name = name1)) as [<-|Hne1],
               (decide (name = name2)) as [<-|Hne2];
        rewrite ?lookup_insert_eq, ?lookup_insert_ne by done.
      * done.
      * intros [= <-] Hr. apply Halloc in Hr. lia.
      * intros Hr [= <-]. apply Halloc in Hr. lia.
      * apply Hinj.
Qed.

Lemma factory_calls_snoc cs c p :
  factory_calls (cs ++ [c]) p = (factory_call c (factory_calls cs p)).2.
Proof. unfold factory_calls. by rewrite foldl_app. Qed.

Lemma factory_calls_well_formed cs : well_formed (factory_calls cs boot).
Proof.
  induction cs as [|c cs IH] using rev_ind.
  - split; intros *; simpl; by rewrite lookup_empty.
  - rewrite factory_calls_snoc, factory_call_as_custom.
    by apply createCustomLimiter_well_formed.
Qed.

Lemma createCustomLimiter_returns name config p :
  well_formed p ->
  exists ref lim,
    (createCustomLimiter name config p).1 = Some ref
    /\ deref (createCustomLimiter name config p).2 (Some ref) = Some lim.
Proof.
  intros [Halloc _].
  destruct (instances p !! name) as [ref|] eqn:Hreg.
  - rewrite (createCustomLimiter_registered _ _ _ _ Hreg). simpl.
    destruct (lookup_lt_is_Some_2 (objects p) ref (Halloc _ _ Hreg)) as [lim Hlim].
    by exists ref, lim.
  - rewrite (createCustomLimiter_new _ _ _ Hreg). simpl.
    eexists _, _. split; [done|]. by rewrite lookup_app_r, Nat.sub_diag.
Qed.

(** X6.  In a process that has only made calls on the factory since it
    started, every factory method returns a reference (the non-null
    assertion after [instances.get] never covers an [undefined]) and the
    reference points at a limiter object; two different names never share
    an object; and a method called a second time returns the reference it
    returned the first time and changes nothing. *)
Theorem factory_returns_shared_limiters calls c :
  let p := factory_calls calls boot in
  (exists ref lim,
     (factory_call c p).1 = Some ref
     /\ deref (factory_call c p).2 (Some ref) = Some lim)
  /\ (forall name1 name2 ref,
        instances p !! name1 = Some ref ->
        instances p !! name2 = Some ref -> name1 = name2)
  /\ factory_call c (factory_call c p).2
     = ((factory_call c p).1, (factory_call c p).2).
Proof.
  intros p.
  pose proof (factory_calls_well_formed calls) as Hwf. fold p in Hwf.
  split; [|split].
  - rewrite factory_call_as_custom. by apply createCustomLimiter_returns.
  - apply Hwf.
  - rewrite !factory_call_as_custom.
    destruct (createCustomLimiter_returns (registration c).1 (registration c).2
                p Hwf) as (ref & lim & Href & _).
    destruct (createCustomLimiter (registration c).1 (registration c).2 p)
      as [o p'] eqn:Hcall. simpl in *. subst o.
    apply createCustomLimiter_registered.
    assert (Hget : instances p' !! (registration c).1 = Some ref).
    { unfold createCustomLimiter in Hcall. by simplify_eq. }
    done.
Qed.

Lemma createCustomLimiter_keeps_config name config name' config' p :
  well_formed p ->
  (name' = name -> config' = config) ->
  registered_with name config p ->
  registered_with name config (createCustomLimiter name' config' p).2.
Proof.
  intros [Halloc _] Hsame Hreg.
  destruct (instances p !! name') as [ref'|] eqn:Hother.
  - by rewrite (createCustomLimiter_registered _ _ _ _ Hother).
  - rewrite (createCustomLimiter_new _ _ _ Hother). intros ref. simpl.
    destruct (decide (name' = name)) as [Heq|Hne].
    + rewrite Heq, lookup_insert_eq. intros [= <-].
      rewrite lookup_app_r, Nat.sub_diag by done. simpl.
      by rewrite (Hsame Heq).
    + rewrite lookup_insert_ne by done. intros Hr.
      rewrite lookup_app_l by (by eapply Halloc). by apply Hreg.
Qed.

Lemma factory_calls_keep_config name config calls :
  Forall (fun c => (registration c).1 = name -> (registration c).2 = config)
    calls ->
  registered_with name config (factory_calls calls boot).
Proof.
  induction calls as [|c calls IH] using rev_ind; intros Hcalls.
  - intros ref. simpl. by rewrite lookup_empty.
  - apply Forall_app in Hcalls as [Hcalls Hc]. rewrite Forall_singleton in Hc.
    rewrite factory_calls_snoc, factory_call_as_custom.
    apply createCustomLimiter_keeps_config;
      auto using factory_calls_well_formed.
Qed.

Lemma createCustomLimiter_deref name config p :
  registered_with name config p ->
  deref (createCustomLimiter name config p).2 (createCustomLimiter name config p).1
  = Some (limiter_of config).
Proof.
  intros Hreg.
  destruct (instances p !! name) as [ref|] eqn:Hname.
  - rewrite (createCustomLimiter_registered _ _ _ _ Hname). simpl.
    by apply Hreg.
  - rewrite (createCustomLimiter_new _ _ _ Hname). simpl.
    by rewrite lookup_app_r, Nat.sub_diag.
Qed.

(** X7.  In a process whose calls on the factory so far have not used
    [createCustomLimiter] with one of the names "default", "auth" and
    "strict", [getDefaultLimiter] returns a limiter of 100 requests per
    900000 ms, [getAuthLimiter] one of 20 per 900000 ms and
    [getStrictLimiter] one of 10 per 60000 ms.  The condition is needed: once
    [createCustomLimiter("default", config)] has registered a limiter under
    the free name "default", [getDefaultLimiter] returns that limiter, with
    the custom configuration. *)
Theorem factory_presets calls :
  Forall spares_presets calls ->
  let p := factory_calls calls boot in
  deref (getDefaultLimiter p).2 (getDefaultLimiter p).1
  = Some {| maxRequests := 100; windowMs := 900000 |}
  /\ deref (getAuthLimiter p).2 (getAuthLimiter p).1
     = Some {| maxRequests := 20; windowMs := 900000 |}
  /\ deref (getStrictLimiter p).2 (getStrictLimiter p).1
     = Some {| maxRequests := 10; windowMs := 60000 |}
  /\ forall q config,
       instances q !! "default" = None ->
       let q' := (createCustomLimiter "default" config q).2 in
       deref (getDefaultLimiter q').2 (getDefaultLimiter q').1
       = Some {| maxRequests := config_maxRequests config;
                 windowMs := config_windowMs config |}.
Proof.
  intros Hcalls p.
  assert (Hpreset : forall c0,
            match c0 with CreateCustom _ _ => False | _ => True end ->
            registered_with (registration c0).1 (registration c0).2 p).
  { intros c0 Hc0. apply factory_calls_keep_config.
    eapply Forall_impl; [exact Hcalls|]. intros c Hc Hname.
    destruct c as [| | |name config]; destruct c0; simpl in *;
      try done; try discriminate; destruct Hc as (? & ? & ?); congruence. }
  split; [|split; [|split]].
  - exact (createCustomLimiter_deref _ _ p (Hpreset GetDefault I)).
  - exact (createCustomLimiter_deref _ _ p (Hpreset GetAuth I)).
  - exact (createCustomLimiter_deref _ _ p (Hpreset GetStrict I)).
  - intros q config Hfree q'. subst q'.
    rewrite (createCustomLimiter_new _ _ _ Hfree), getDefaultLimiter_as_custom.
    rewrite (createCustomLimiter_registered _ _ _ (length (objects q)))
      by (simpl; by rewrite lookup_insert_eq).
    simpl. by rewrite lookup_app_r, Nat.sub_diag.
Qed.

Lemma factory_presets_witness :
  let calls := [GetStrict;
                CreateCustom "uploads"
                  {| config_maxRequests := 5; config_windowMs := 1000 |};
                GetDefault] in
  let p := factory_calls calls boot in
  deref (getDefaultLimiter p).2 (getDefaultLimiter p).1
  = Some {| maxRequests := 100; windowMs := 900000 |}
  /\ deref (getAuthLimiter p).2 (getAuthLimiter p).1
     = Some {| maxRequests := 20; windowMs := 900000 |}
  /\ deref (getStrictLimiter p).2 (getStrictLimiter p).1
     = Some {| maxRequests := 10; windowMs := 60000 |}
  /\ forall q config,
       instances q !! "default" = None ->
       let q' := (createCustomLimiter "default" config q).2 in
       deref (getDefaultLimiter q').2 (getDefaultLimiter q').1
       = Some {| maxRequests := config_maxRequests config;
                 windowMs := config_windowMs config |}.
Proof.
  intros calls.
  apply (factory_presets calls).
  repeat constructor; discriminate.
Defined.

(** ** Properties of the callers *)

(** *** Trimming and splitting *)

Lemma append_nil_l (s : string) : EmptyString +:+ s = s.
Proof. reflexivity. Qed.

Lemma append_cons (a : ascii) (s t : string) :
  String a s +:+ t = String a (s +:+ t).
Proof. reflexivity. Qed.

Lemma append_nil_r (s : string) : s +:+ EmptyString = s.
Proof. induction s as [|a s IH]; [done|]. by rewrite append_cons, IH. Qed.

Lemma white_space_not_comma a :
  is_white_space a = true -> Ascii.eqb a ","%char = false.
Proof.
  destruct (Ascii.eqb a ","%char) eqn:Heq; [|done].
  apply Ascii.eqb_eq in Heq as ->. done.
Qed.

Lemma all_white_space_comma_free s :
  all_white_space s = true -> comma_free s = true.
Proof.
  induction s as [|a s IH]; simpl; [done|].
  intros [Ha Hs]%andb_prop. by rewrite (white_space_not_comma a Ha), IH.
Qed.

Lemma comma_free_append s t :
  comma_free (s +:+ t) = comma_free s && comma_free t.
Proof.
  induction s as [|a s IH]; [done|].
  rewrite append_cons. simpl. rewrite IH. by rewrite andb_assoc.
Qed.

Lemma split_comma_first_append s t :
  comma_free s = true ->
  split_comma_first (s +:+ t) = s +:+ split_comma_first t.
Proof.
  induction s as [|a s IH]; [done|].
  rewrite !append_cons. simpl. intros [Ha Hs]%andb_prop.
  apply negb_true_iff in Ha. by rewrite Ha, IH.
Qed.

Lemma split_comma_first_comma_free s :
  comma_free s = true -> split_comma_first s = s.
Proof.
  intros Hs. rewrite <- (append_nil_r s) at 1.
  rewrite split_comma_first_append by done. simpl. apply append_nil_r.
Qed.

Lemma trimStart_white s : all_white_space s = true -> trimStart s = EmptyString.
Proof.
  induction s as [|a s IH]; simpl; [done|].
  intros [Ha Hs]%andb_prop. by rewrite Ha, IH.
Qed.

Lemma trimStart_append_white pre s :
  all_white_space pre = true -> trimStart (pre +:+ s) = trimStart s.
Proof.
  induction pre as [|a pre IH]; [done|].
  rewrite append_cons. simpl. intros [Ha Hpre]%andb_prop. by rewrite Ha, IH.
Qed.

Lemma trimEnd_white s : all_white_space s = true -> trimEnd s = EmptyString.
Proof.
  induction s as [|a s IH]; simpl; [done|].
  intros [Ha Hs]%andb_prop. by rewrite IH, Ha.
Qed.

Lemma trimEnd_append_white s post :
  all_white_space post = true -> trimEnd (s +:+ post) = trimEnd s.
Proof.
  intros Hpost. induction s as [|a s IH].
  - rewrite append_nil_l. by apply trimEnd_white.
  - rewrite append_cons. simpl. by rewrite IH.
Qed.

(** White space around a string does not survive [trim]. *)
Lemma trim_padded pre s post :
  all_white_space pre = true -> all_white_space post = true ->
  trim (pre +:+ s +:+ post) = trim s.
Proof.
  intros Hpre Hpost. unfold trim. rewrite trimStart_append_white by done.
  induction s as [|a s IH].
  - rewrite append_nil_l. by rewrite trimStart_white.
  - rewrite append_cons. simpl. destruct (is_white_space a); [done|].
    by rewrite <- append_cons, trimEnd_append_white.
Qed.

Lemma trimEnd_idempotent s : trimEnd (trimEnd s) = trimEnd s.
Proof.
  induction s as [|a s IH]; simpl; [done|].
  destruct (trimEnd s) as [|b kept] eqn:Hkept.
  - destruct (is_white_space a) eqn:Ha; simpl; [done|]. by rewrite Ha.
  - simpl in *. by rewrite IH.
Qed.

Lemma trimStart_head s :
  trimStart s = EmptyString
  \/ exists a rest, trimStart s = String a rest /\ is_white_space a = false.
Proof.
  induction s as [|a s IH]; simpl; [by left|].
  destruct (is_white_space a) eqn:Ha; [done|]. right. by exists a, s.
Qed.

Lemma trimEnd_head a rest :
  is_white_space a = false ->
  exists kept, trimEnd (String a rest) = String a kept.
Proof.
  intros Ha. simpl. destruct (trimEnd rest); rewrite ?Ha; by eexists.
Qed.

Lemma trim_idempotent s : trim (trim s) = trim s.
Proof.
  unfold trim.
  destruct (trimStart_head s) as [-> | (a & rest & -> & Ha)]; [done|].
  destruct (trimEnd_head a rest Ha) as [kept Hkept].
  assert (Hstart : trimStart (trimEnd (String a rest)) = trimEnd (String a rest)).
  { rewrite Hkept. simpl. by rewrite Ha. }
  by rewrite Hstart, trimEnd_idempotent.
Qed.

(** *** The client address *)

(** X8.  With an [x-forwarded-for] header whose first comma-separated
    entry is [ip] surrounded by any white space, [getClientIP] returns
    [ip]: the padding, the entries after the first comma and the
    [x-real-ip] header make no difference.  ([ip] is not empty, has no comma
    and no white space at either end.) *)
Theorem getClientIP_first_entry pre ip post tail real :
  all_white_space pre = true ->
  all_white_space post = true ->
  ip <> EmptyString ->
  comma_free ip = true ->
  trim ip = ip ->
  (tail = EmptyString \/ exists rest, tail = String ","%char rest) ->
  getClientIP {| x_forwarded_for := Some (pre +:+ ip +:+ post +:+ tail);
                 x_real_ip := real |}
  = ip.
Proof.
  intros Hpre Hpost Hip Hcomma Htrim Htail.
  assert (Hsplit : split_comma_first (pre +:+ ip +:+ post +:+ tail)
                   = pre +:+ ip +:+ post).
  { rewrite !split_comma_first_append
      by auto using all_white_space_comma_free.
    destruct Htail as [-> | [rest ->]]; simpl; by rewrite ?append_nil_r. }
  assert (Hsome : truthy (Some (pre +:+ ip +:+ post +:+ tail)) = true).
  { destruct (pre +:+ ip +:+ post +:+ tail) eqn:Hall; [|done].
    simpl in Hsplit.
    assert (Hempty : trim (pre +:+ ip +:+ post) = EmptyString)
      by (by rewrite <- Hsplit).
    rewrite trim_padded in Hempty by done. congruence. }
  unfold getClientIP. cbn [x_forwarded_for x_real_ip]. rewrite Hsome.
  cbn [from_option id]. rewrite Hsplit.
  by rewrite trim_padded.
Qed.

Lemma getClientIP_first_entry_witness :
  getClientIP {| x_forwarded_for :=
                   Some (" " +:+ "203.0.113.7" +:+ " " +:+ ", 10.0.0.1");
                 x_real_ip := Some "10.0.0.2"%string |}
  = "203.0.113.7"%string.
Proof.
  apply (getClientIP_first_entry " " "203.0.113.7" " " ", 10.0.0.1"
           (Some "10.0.0.2"%string));
    first [reflexivity | discriminate | right; by eexists].
Defined.

(** X9.  What [getClientIP] returns has no white space at either end
    (trimming it again changes nothing).  Without a non-empty
    [x-forwarded-for] it is the trimmed [x-real-ip], and without a non-empty
    [x-real-ip] either it is "unknown"; with a non-empty [x-forwarded-for]
    it is the trimmed first entry, whatever [x-real-ip] holds. *)
Theorem getClientIP_is_trimmed request :
  trim (getClientIP request) = getClientIP request
  /\ (truthy (x_forwarded_for request) = false ->
      forall real, x_real_ip request = Some real -> real <> EmptyString ->
      getClientIP request = trim real)
  /\ (truthy (x_forwarded_for request) = false ->
      truthy (x_real_ip request) = false ->
      getClientIP request = "unknown"%string)
  /\ (forall forwarded,
        x_forwarded_for request = Some forwarded -> forwarded <> EmptyString ->
        getClientIP request = trim (split_comma_first forwarded)).
Proof.
  split; [apply trim_idempotent|].
  unfold getClientIP. split; [|split].
  - intros -> real -> Hreal. by destruct real.
  - by intros -> ->.
  - intros forwarded -> Hne. by destruct forwarded.
Qed.

(** X10.  The client address the routes derive is never empty: it is
    "unknown" when there is no [x-forwarded-for] header, when the header is
    empty and when it starts with a comma, and the first entry otherwise,
    kept as it is (not trimmed).  Whenever that first entry is not empty,
    the handlers' [getClientIP] returns the same address trimmed. *)
Theorem route_clientIP_never_empty request :
  route_clientIP request <> EmptyString
  /\ (x_forwarded_for request = None -> route_clientIP request = "unknown"%string)
  /\ (forall forwarded,
        x_forwarded_for request = Some forwarded ->
        (split_comma_first forwarded = EmptyString ->
         route_clientIP request = "unknown"%string)
        /\ (split_comma_first forwarded <> EmptyString ->
            route_clientIP request = split_comma_first forwarded
            /\ getClientIP request = trim (route_clientIP request))).
Proof.
  unfold route_clientIP, getClientIP.
  destruct (x_forwarded_for request) as [forwarded|]; simpl.
  - split; [|split; [done|]].
    + by destruct (split_comma_first forwarded).
    + intros ? [= <-]. split.
      * by intros ->.
      * intros Hne. destruct (split_comma_first forwarded) eqn:Hfirst; [done|].
        split; [done|]. by destruct forwarded.
  - split; [done|]. split; [done|]. by intros.
Qed.

(** *** The rate-limit headers *)

Lemma applyRateLimitHeaders_unfold headers info :
  applyRateLimitHeaders headers info
  = <["x-ratelimit-reset"%string := Number_toString (reset info)]>
      (<["x-ratelimit-remaining"%string := Number_toString (remaining info)]>
         (<["x-ratelimit-limit"%string := Number_toString (limit info)]> headers)).
Proof. reflexivity. Qed.

Lemma Number_toString_inj m n : Number_toString m = Number_toString n -> m = n.
Proof. apply pretty_Z_inj. Qed.

(** X11.  After [applyRateLimitHeaders(headers, info)] the headers
    X-RateLimit-Limit, X-RateLimit-Remaining and X-RateLimit-Reset, read
    under any letter case, hold the decimal renderings of [limit],
    [remaining] and [reset]; every other header is as it was; values set by
    an earlier application are replaced; and the three headers determine the
    info: two infos that give the same three header values are equal. *)
Theorem rate_limit_headers_carry_the_info headers info :
  let written := applyRateLimitHeaders headers info in
  (forall name,
     (lower name = "x-ratelimit-limit"%string ->
      Headers_get name written = Some (Number_toString (limit info)))
     /\ (lower name = "x-ratelimit-remaining"%string ->
         Headers_get name written = Some (Number_toString (remaining info)))
     /\ (lower name = "x-ratelimit-reset"%string ->
         Headers_get name written = Some (Number_toString (reset info)))
     /\ (lower name <> "x-ratelimit-limit"%string ->
         lower name <> "x-ratelimit-remaining"%string ->
         lower name <> "x-ratelimit-reset"%string ->
         Headers_get name written = Headers_get name headers))
  /\ (forall earlier,
        applyRateLimitHeaders (applyRateLimitHeaders headers earlier) info
        = written)
  /\ (forall headers' info',
        Headers_get "X-RateLimit-Limit" (applyRateLimitHeaders headers' info')
        = Headers_get "X-RateLimit-Limit" written ->
        Headers_get "X-RateLimit-Remaining" (applyRateLimitHeaders headers' info')
        = Headers_get "X-RateLimit-Remaining" written ->
        Headers_get "X-RateLimit-Reset" (applyRateLimitHeaders headers' info')
        = Headers_get "X-RateLimit-Reset" written ->
        info' = info).
Proof.
  intros written. subst written. split; [|split].
  - intros name. unfold Headers_get. rewrite applyRateLimitHeaders_unfold.
    split; [|split; [|split]].
    + intros ->. rewrite lookup_insert_ne by done.
      rewrite lookup_insert_ne by done. by rewrite lookup_insert_eq.
    + intros ->. rewrite lookup_insert_ne by done. by rewrite lookup_insert_eq.
    + intros ->. by rewrite lookup_insert_eq.
    + intros H1 H2 H3. by rewrite !lookup_insert_ne.
  - intros earlier. rewrite !applyRateLimitHeaders_unfold.
    apply map_eq. intros k.
    destruct (decide (k = "x-ratelimit-reset"%string)) as [->|H3];
      [by rewrite !lookup_insert_eq|].
    rewrite !(lookup_insert_ne _ "x-ratelimit-reset"%string) by done.
    destruct (decide (k = "x-ratelimit-remaining"%string)) as [->|H2];
      [by rewrite !lookup_insert_eq|].
    rewrite !(lookup_insert_ne _ "x-ratelimit-remaining"%string) by done.
    destruct (decide (k = "x-ratelimit-limit"%string)) as [->|H1];
      [by rewrite !lookup_insert_eq|].
    by rewrite !lookup_insert_ne.
  - intros headers' info'. unfold Headers_get.
    rewrite !applyRateLimitHeaders_unfold.
    change (lower "X-RateLimit-Limit") with "x-ratelimit-limit"%string.
    change (lower "X-RateLimit-Remaining") with "x-ratelimit-remaining"%string.
    change (lower "X-RateLimit-Reset") with "x-ratelimit-reset"%string.
    rewrite !lookup_insert_eq.
    rewrite !(lookup_insert_ne _ "x-ratelimit-reset"%string) by done.
    rewrite !lookup_insert_eq.
    rewrite !(lookup_insert_ne _ "x-ratelimit-remaining"%string) by done.
    rewrite !lookup_insert_eq.
    intros [= Hl%Number_toString_inj] [= Hr%Number_toString_inj]
           [= Ht%Number_toString_inj].
    destruct info, info'. simpl in *. by subst.
Qed.

(** *** [ErrorHandler.handle] *)

(** X12.  For every caught value whose error object is as its constructor
    left it, [ErrorHandler.handle] returns a status among 400, 401, 403,
    404, 409, 429 and 500 and a body with [success: false] whose
    [error.statusCode] is that status and whose [error.code] names it (429
    exactly for RATE_LIMIT_EXCEEDED, 500 exactly for
    INTERNAL_SERVER_ERROR).  The body has a [retryAfter] member exactly for
    a [RateLimitError], holding its [retryAfter].  For a value that is not a
    [BaseError] the result is that of a fresh [InternalServerError]: status
    500 and the fixed message, nothing of the value caught. *)
Theorem ErrorHandler_status_and_body error :
  constructed_caught error ->
  let status := (ErrorHandler_handle error).1 in
  let body := (ErrorHandler_handle error).2 in
  In status [400; 401; 403; 404; 409; 429; 500]
  /\ property "success" body = Some (JBool false)
  /\ property "error" body ≫= property "statusCode" = Some (JNumber status)
  /\ (exists code,
        property "error" body ≫= property "code"
        = Some (JString (ErrorCode_value code))
        /\ (status = 429 <-> code = RATE_LIMIT_EXCEEDED)
        /\ (status = 500 <-> code = INTERNAL_SERVER_ERROR))
  /\ property "retryAfter" body
     = match error with
       | CaughtBaseError (RateLimitError_ r) => Some (JNumber (retryAfter r))
       | _ => None
       end
  /\ (forall what,
        error = CaughtOther what ->
        status = 500
        /\ body
           = JObject
               [ ("success"%string, JBool false);
                 ("error"%string,
                  JObject
                    [ ("code"%string, JString "INTERNAL_SERVER_ERROR");
                      ("message"%string, JString "An unexpected error occurred");
                      ("statusCode"%string, JNumber 500) ]) ]).
Proof.
  intros Hok status body. subst status body.
  destruct error as [e|what].
  - destruct e as [m f|m|m|res|m|r|m|m]; simpl in Hok; try rewrite Hok;
      (split; [simpl; tauto|]);
      (split; [reflexivity|]);
      (split; [reflexivity|]);
      (split; [eexists; split; [reflexivity|]; split; split; intros; done|]);
      (split; [reflexivity|]); intros; discriminate.
  - split; [simpl; tauto|]. split; [reflexivity|]. split; [reflexivity|].
    split.
    { exists INTERNAL_SERVER_ERROR. split; [reflexivity|]. by split. }
    split; [reflexivity|]. intros what' _. by split.
Qed.

Lemma ErrorHandler_status_and_body_witness :
  let error := caught_of (ThrowRateLimit (new_RateLimitError 7)) in
  let status := (ErrorHandler_handle error).1 in
  let body := (ErrorHandler_handle error).2 in
  In status [400; 401; 403; 404; 409; 429; 500]
  /\ property "success" body = Some (JBool false)
  /\ property "error" body ≫= property "statusCode" = Some (JNumber status)
  /\ (exists code,
        property "error" body ≫= property "code"
        = Some (JString (ErrorCode_value code))
        /\ (status = 429 <-> code = RATE_LIMIT_EXCEEDED)
        /\ (status = 500 <-> code = INTERNAL_SERVER_ERROR))
  /\ property "retryAfter" body
     = match error with
       | CaughtBaseError (RateLimitError_ r) => Some (JNumber (retryAfter r))
       | _ => None
       end
  /\ (forall what,
        error = CaughtOther what ->
        status = 500
        /\ body
           = JObject
               [ ("success"%string, JBool false);
                 ("error"%string,
                  JObject
                    [ ("code"%string, JString "INTERNAL_SERVER_ERROR");
                      ("message"%string, JString "An unexpected error occurred");
                      ("statusCode"%string, JNumber 500) ]) ]).
Proof.
  intros error.
  apply (ErrorHandler_status_and_body error).
  reflexivity.
Defined.

(** *** [UserHandler.getProfile] *)

(** X13.  When the record of the caller's address is live and at the
    limit (the store's read up, the clock not running backwards),
    [getProfile] answers 429 without authenticating or calling the service:
    whatever these would have returned, the body is the [RateLimitError]'s
    JSON with [retryAfter = ceil((expiresAt - now) / 1000)], the response
    carries no header but the content type (no X-RateLimit-* header, no
    Retry-After), and the stored record is as it was. *)
Theorem getProfile_over_quota this env request authenticate service db r :
  let key :=
    generateKey (rateLimiter this) ("profile:" +:+ getClientIP request) in
  db !! key = Some r ->
  nowAt (clock env) <= expiresAt r ->
  count r >= maxRequests (rateLimiter this) ->
  sweepAt (clock env) <= nowAt (clock env) ->
  findDown (outage env) = None ->
  exists db',
    UserHandler_getProfile this env request authenticate service db
    = ({| res_status := 429;
          res_body :=
            JObject
              [ ("success"%string, JBool false);
                ("error"%string,
                 JObject
                   [ ("code"%string, JString "RATE_LIMIT_EXCEEDED");
                     ("message"%string,
                      JString "Too many requests. Please try again later.");
                     ("statusCode"%string, JNumber 429) ]);
                ("retryAfter"%string,
                 JNumber (Math_ceil_div (expiresAt r - nowAt (clock env)) 1000)) ];
          res_headers := {[ "content-type"%string := "application/json"%string ]} |},
       db')
    /\ db' !! key = Some r.
Proof.
  intros key Hk Hlive Hfull Hclock Hf.
  assert (Hk' : swept (sweepDown (outage env)) (sweepAt (clock env)) db
                  !! key = Some r)
    by (apply swept_lookup_live; [done|lia]).
  eexists. split; [|exact Hk'].
  unfold UserHandler_getProfile.
  rewrite (consume_reject (rateLimiter this) env _ db r) by (auto; lia).
  reflexivity.
Qed.

Lemma getProfile_over_quota_witness :
  let this := {| rateLimiter := {| maxRequests := 100; windowMs := 900000 |} |} in
  let env := {| clock := instant 1500; outage := all_up |} in
  let request := {| x_forwarded_for := Some "203.0.113.7, 10.0.0.1"%string;
                    x_real_ip := None |} in
  let r := {| count := 100; expiresAt := 4000 |} in
  let db : Table := {[ "rate_limit:profile:203.0.113.7"%string := r ]} in
  let key :=
    generateKey (rateLimiter this) ("profile:" +:+ getClientIP request) in
  let authenticate :=
    Returned {| userId := "u1"; email := "a@b.c"; role := "user" |} in
  let service := fun id : string => Returned (JObject [("id"%string, JString id)]) in
  exists db',
    UserHandler_getProfile this env request authenticate service db
    = ({| res_status := 429;
          res_body :=
            JObject
              [ ("success"%string, JBool false);
                ("error"%string,
                 JObject
                   [ ("code"%string, JString "RATE_LIMIT_EXCEEDED");
                     ("message"%string,
                      JString "Too many requests. Please try again later.");
                     ("statusCode"%string, JNumber 429) ]);
                ("retryAfter"%string,
                 JNumber (Math_ceil_div (expiresAt r - nowAt (clock env)) 1000)) ];
          res_headers := {[ "content-type"%string := "application/json"%string ]} |},
       db')
    /\ db' !! key = Some r.
Proof.
  intros this env request r db key authenticate service.
  apply (getProfile_over_quota this env request authenticate service db r);
    first [reflexivity | simpl; lia].
Defined.

(** X14.  What [getProfile] does to the rateLimitRecord table is what its
    one [consume] does, whatever authentication and the service then
    return, so a request that fails authentication has consumed quota.
    When a value that is not a [BaseError] is thrown (by the store in
    [consume], by authentication or by the service) the answer is status 500
    with the fixed body of [InternalServerError], which has nothing of the
    value thrown. *)
Theorem getProfile_consumes_then_answers this env request authenticate service db :
  let consumed :=
    consume (rateLimiter this) env ("profile:" +:+ getClientIP request) db in
  let answer :=
    UserHandler_getProfile this env request authenticate service db in
  let internal_error :=
    NextResponse_json
      (JObject
         [ ("success"%string, JBool false);
           ("error"%string,
            JObject
              [ ("code"%string, JString "INTERNAL_SERVER_ERROR");
                ("message"%string, JString "An unexpected error occurred");
                ("statusCode"%string, JNumber 500) ]) ]) 500 in
  answer.2 = consumed.2
  /\ (forall why, consumed.1 = Rejected (ThrowStorage why) ->
        answer.1 = internal_error)
  /\ (forall info what,
        consumed.1 = Resolved info -> authenticate = Threw (CaughtOther what) ->
        answer.1 = internal_error)
  /\ (forall info payload what,
        consumed.1 = Resolved info -> authenticate = Returned payload ->
        service (userId payload) = Threw (CaughtOther what) ->
        answer.1 = internal_error)
  /\ (forall info e,
        consumed.1 = Resolved info -> authenticate = Threw (CaughtBaseError e) ->
        res_status answer.1 = error_statusCode e
        /\ res_body answer.1 = toJSON e
        /\ exists row,
             answer.2 !! generateKey (rateLimiter this)
                           ("profile:" +:+ getClientIP request) = Some row).
Proof.
  intros consumed answer internal_error. subst consumed answer internal_error.
  unfold UserHandler_getProfile.
  destruct (consume_cases (rateLimiter this) env
              ("profile:" +:+ getClientIP request) db)
    as [why Hf | why Hf Hstale Hw | Hup Hstale | r Hf Hk Hlive Hfull
        | why r Hf Hk Hlive Hroom Hw | r Hup Hk Hlive Hroom]; simpl;
    try (split; [done|]; split; [by intros ? [= ->]|]; by repeat split).
  - split.
    { destruct authenticate as [payload|error]; [|done].
      by destruct (service (userId payload)). }
    split; [done|].
    split; [by intros ? what _ ->|].
    split; [by intros ? payload what _ -> ->|].
    intros ? e _ ->. split; [done|]. split; [done|].
    eexists. simpl. by rewrite lookup_insert_eq.
  - split.
    { destruct authenticate as [payload|error]; [|done].
      by destruct (service (userId payload)). }
    split; [done|].
    split; [by intros ? what _ ->|].
    split; [by intros ? payload what _ -> ->|].
    intros ? e _ ->. split; [done|]. split; [done|].
    eexists. simpl. by rewrite lookup_insert_eq.
Qed.

Lemma constructed_status_not_200 error :
  constructed_caught error -> (ErrorHandler_handle error).1 <> 200.
Proof.
  destruct error as [e|what]; [|done].
  destruct e; simpl; try done. by intros ->.
Qed.

Lemma handled_response error :
  (let '(status, body) := ErrorHandler_handle error in
   NextResponse_json body status)
  = NextResponse_json (ErrorHandler_handle error).2 (ErrorHandler_handle error).1.
Proof. by destruct (ErrorHandler_handle error). Qed.

(** X15.  Authentication and the service throwing only error objects as
    their constructors leave them (or values that are no [BaseError]),
    [getProfile] answers 200 exactly when its [consume] succeeded,
    authentication returned a payload and the service returned the user.
    That answer has the body [{success: true, message, data: user}] and the
    three X-RateLimit headers written from the info [consume] returned.
    Every other answer carries the content type as its only header: the
    rate-limit headers are sent on success only. *)
Theorem getProfile_headers_on_success_only this env request authenticate service db :
  constructed_awaited authenticate ->
  (forall id, constructed_awaited (service id)) ->
  let consumed :=
    consume (rateLimiter this) env ("profile:" +:+ getClientIP request) db in
  let answer :=
    UserHandler_getProfile this env request authenticate service db in
  (res_status answer.1 = 200 <->
   exists info payload user,
     consumed.1 = Resolved info /\ authenticate = Returned payload
     /\ service (userId payload) = Returned user)
  /\ (forall info payload user,
        consumed.1 = Resolved info -> authenticate = Returned payload ->
        service (userId payload) = Returned user ->
        answer.1
        = {| res_status := 200;
             res_body :=
               JObject [ ("success"%string, JBool true);
                         ("message"%string,
                          JString "Profile retrieved successfully");
                         ("data"%string, user) ];
             res_headers :=
               applyRateLimitHeaders
                 {[ "content-type"%string := "application/json"%string ]} info |})
  /\ (res_status answer.1 <> 200 ->
      res_headers answer.1
      = {[ "content-type"%string := "application/json"%string ]}).
Proof.
  intros Hauth Hservice consumed answer. subst consumed answer.
  unfold UserHandler_getProfile.
  destruct (consume_cases (rateLimiter this) env
              ("profile:" +:+ getClientIP request) db)
    as [why Hf | why Hf Hstale Hw | Hup Hstale | r Hf Hk Hlive Hfull
        | why r Hf Hk Hlive Hroom Hw | r Hup Hk Hlive Hroom]; simpl.
  all: try (split; [split; [done|by intros (? & ? & ? & [=] & _)]|];
            split; [by intros ? ? ? [=]|]; done).
  all: destruct authenticate as [payload|error]; simpl.
  all: try (rewrite handled_response; simpl;
            split; [split; [intros Hs; by apply constructed_status_not_200 in Hs
                           |by intros (? & ? & ? & _ & [=] & _)]|];
            split; [by intros ? ? ? _ [=]|]; done).
  all: specialize (Hservice (userId payload)).
  all: destruct (service (userId payload)) as [user|error] eqn:Hs; simpl.
  all: try (rewrite handled_response; simpl;
            split; [split; [intros Hst; by apply constructed_status_not_200 in Hst
                           |intros (? & ? & ? & _ & [= <-] & Hu);
                            rewrite Hs in Hu; discriminate]|];
            split; [intros ? ? ? _ [= <-] Hu; rewrite Hs in Hu; discriminate|];
            done).
  all: split; [split; [intros _; eexists _, payload, user; by repeat split|done]|];
       split; [|done];
       intros ? ? ? [= <-] [= <-] Hu; rewrite Hs in Hu; by injection Hu as <-.
Qed.

Lemma getProfile_headers_on_success_only_witness :
  let this := {| rateLimiter := {| maxRequests := 100; windowMs := 900000 |} |} in
  let env := {| clock := instant 1500; outage := all_up |} in
  let request := {| x_forwarded_for := None; x_real_ip := None |} in
  let authenticate :=
    Returned {| userId := "u1"; email := "a@b.c"; role := "user" |} in
  let service := fun id : string => Returned (JObject [("id"%string, JString id)]) in
  let consumed :=
    consume (rateLimiter this) env ("profile:" +:+ getClientIP request) ∅ in
  let answer :=
    UserHandler_getProfile this env request authenticate service ∅ in
  (res_status answer.1 = 200 <->
   exists info payload user,
     consumed.1 = Resolved info /\ authenticate = Returned payload
     /\ service (userId payload) = Returned user)
  /\ (forall info payload user,
        consumed.1 = Resolved info -> authenticate = Returned payload ->
        service (userId payload) = Returned user ->
        answer.1
        = {| res_status := 200;
             res_body :=
               JObject [ ("success"%string, JBool true);
                         ("message"%string,
                          JString "Profile retrieved successfully");
                         ("data"%string, user) ];
             res_headers :=
               applyRateLimitHeaders
                 {[ "content-type"%string := "application/json"%string ]} info |})
  /\ (res_status answer.1 <> 200 ->
      res_headers answer.1
      = {[ "content-type"%string := "application/json"%string ]}).
Proof.
  intros this env request authenticate service.
  apply (getProfile_headers_on_success_only this env request authenticate service ∅).
  - exact I.
  - intros id. exact I.
Defined.

(** *** [POST /api/auth/verify-email] *)

(** X16.  The route's effect on the rateLimitRecord table is that of its
    one [consume], made before the body is read.  Its status is always one
    of 200, 400, 429 and 500.  A [RateLimitError] from [consume] is answered
    with 429 and a fixed message: unlike the handlers' answer, the body has
    no [retryAfter].  A body other than [null] without a truthy [token] is
    answered with 400, the quota having been consumed.  Only the 200 answer carries the
    rate-limit headers, written from the info [consume] returned; every
    other answer has the content type as its only header. *)
Theorem verify_email_POST_answers lim env request request_json verifyEmail db :
  let consumed :=
    consume lim env ("verify-email:" +:+ route_clientIP request) db in
  let answer := verify_email_POST lim env request request_json verifyEmail db in
  answer.2 = consumed.2
  /\ In (res_status answer.1) [200; 400; 429; 500]
  /\ (forall e,
        consumed.1 = Rejected (ThrowRateLimit e) ->
        answer.1
        = NextResponse_json
            (JObject [ ("success"%string, JBool false);
                       ("message"%string,
                        JString "Too many requests. Please try again later.") ])
            429
        /\ property "retryAfter" (res_body answer.1) = None)
  /\ (forall info body,
        consumed.1 = Resolved info ->
        request_json = Returned body ->
        body <> JNull ->
        falsy (property "token" body) = true ->
        answer.1
        = NextResponse_json
            (JObject [ ("success"%string, JBool false);
                       ("message"%string,
                        JString "Verification token is required") ])
            400)
  /\ (res_status answer.1 <> 200 ->
      res_headers answer.1
      = {[ "content-type"%string := "application/json"%string ]})
  /\ (res_status answer.1 = 200 ->
      exists info,
        consumed.1 = Resolved info
        /\ res_headers answer.1
           = applyRateLimitHeaders
               {[ "content-type"%string := "application/json"%string ]} info).
Proof.
  intros consumed answer. subst consumed answer. unfold verify_email_POST.
  destruct (consume lim env ("verify-email:" +:+ route_clientIP request) db)
    as [[info|[e|why]] db']; simpl.
  - destruct request_json as [body|error]; simpl.
    + destruct body as [|b|n|s|items|members]; simpl;
        try (repeat split; try tauto; try done;
             intros; simplify_eq; done).
      destruct (falsy (get_member "token" members)) eqn:Htoken; simpl.
      * repeat split; try tauto; try done; intros; by simplify_eq.
      * destruct (verifyEmail (default JNull (get_member "token" members)))
          as [[]|error]; simpl.
        -- repeat split; try tauto; try done.
           ++ intros; simplify_eq. simpl in *. congruence.
           ++ intros _. by eexists.
        -- destruct error as [[]|what]; simpl;
             repeat split; try tauto; try done;
             intros; simplify_eq; simpl in *; congruence.
    + destruct error as [[]|what]; simpl;
        repeat split; try tauto; try done; intros; by simplify_eq.
  - repeat split; try tauto; try done; intros; by simplify_eq.
  - repeat split; try tauto; try done; intros; by simplify_eq.
Qed.
